(** * A shallow embedding of the [Transform] interaction of ol-transform

    The model follows [src/src/features/HandleFeature.ts] (which bundles
    [HandleFeature], the geometry helpers of [util], [TransformEvent] and
    the [Transform] pointer interaction).

    Numbers are real numbers: the development is exact arithmetic, not
    IEEE-754.  Coordinates are pairs [(x, y)]; a geometry is its kind
    together with its flat list of coordinates, on which the OpenLayers
    primitives [rotate], [scale], [translate] and [getExtent] act
    pointwise.  Features (the shapes the user manipulates) live in a store
    indexed by their identity, so that the selection holds references and
    a geometry mutation through the selection is visible through every
    other reference; the snapshot ([_prevSelections]) holds clones, i.e.
    values. *)

From Stdlib Require Import Reals Lra Lia RNsatz List ZArith Bool.
Import ListNotations.
Open Scope R_scope.

(** ** Coordinates, extents and the OpenLayers geometry primitives *)

Definition Coordinate := (R * R)%type.

Record Extent := mkExtent { eMinX : R; eMinY : R; eMaxX : R; eMaxY : R }.

(** [ol/extent.extendCoordinate] *)
Definition extendCoordinate (e : Extent) (p : Coordinate) : Extent :=
  mkExtent (Rmin (eMinX e) (fst p)) (Rmin (eMinY e) (snd p))
           (Rmax (eMaxX e) (fst p)) (Rmax (eMaxY e) (snd p)).

(** [ol/extent.boundingExtent], also the extent of a geometry's flat
    coordinates.  OpenLayers starts from the empty extent
    [[Infinity, Infinity, -Infinity, -Infinity]]; extending it by the first
    coordinate gives that coordinate's point extent, which is where the
    fold starts here.  The empty extent itself is not a real number; the
    geometries handled here always have coordinates. *)
Definition boundingExtent (l : list Coordinate) : Extent :=
  match l with
  | [] => mkExtent 0 0 0 0
  | p :: l' => fold_left extendCoordinate l' (mkExtent (fst p) (snd p) (fst p) (snd p))
  end.

(** [ol/extent.getCenter] *)
Definition getCenter (e : Extent) : Coordinate :=
  ((eMinX e + eMaxX e) / 2, (eMinY e + eMaxY e) / 2).

Inductive GeomKind := GPoint | GPolygon.

Record Geometry := mkGeometry { gkind : GeomKind; gcoords : list Coordinate }.

Definition Point (c : Coordinate) : Geometry := mkGeometry GPoint [c].

Definition getExtent (g : Geometry) : Extent := boundingExtent (gcoords g).

(** [ol/geom/flat/transform.rotate], used by [SimpleGeometry.rotate]. *)
Definition rotateCoordinate (angle : R) (anchor : Coordinate) (p : Coordinate) : Coordinate :=
  let deltaX := fst p - fst anchor in
  let deltaY := snd p - snd anchor in
  (fst anchor + deltaX * cos angle - deltaY * sin angle,
   snd anchor + deltaX * sin angle + deltaY * cos angle).

Definition geomRotate (angle : R) (anchor : Coordinate) (g : Geometry) : Geometry :=
  mkGeometry (gkind g) (map (rotateCoordinate angle anchor) (gcoords g)).

(** [ol/geom/flat/transform.scale], used by [SimpleGeometry.scale]. *)
Definition scaleCoordinate (sx sy : R) (anchor : Coordinate) (p : Coordinate) : Coordinate :=
  (fst anchor + sx * (fst p - fst anchor), snd anchor + sy * (snd p - snd anchor)).

Definition geomScale (sx sy : R) (anchor : Coordinate) (g : Geometry) : Geometry :=
  mkGeometry (gkind g) (map (scaleCoordinate sx sy anchor) (gcoords g)).

(** [ol/geom/flat/transform.translate], used by [SimpleGeometry.translate]. *)
Definition translateCoordinate (dx dy : R) (p : Coordinate) : Coordinate :=
  (fst p + dx, snd p + dy).

Definition geomTranslate (dx dy : R) (g : Geometry) : Geometry :=
  mkGeometry (gkind g) (map (translateCoordinate dx dy) (gcoords g)).

(** [ol/geom/Polygon.fromExtent]: the closed ring of the extent. *)
Definition fromExtent (e : Extent) : Geometry :=
  mkGeometry GPolygon
    [(eMinX e, eMinY e); (eMinX e, eMaxY e); (eMaxX e, eMaxY e);
     (eMaxX e, eMinY e); (eMinX e, eMinY e)].

(** ** [util]: the geometry helpers *)

Definition origin : Coordinate := (0, 0).

(** [rearrangeCoords]: out-of-range reads cannot happen (the argument is
    always a ring of five coordinates). *)
Definition rearrangeCoords (coords : list Coordinate) : list Coordinate :=
  let c0 := nth 0 coords origin in
  let c1 := nth 1 coords origin in
  let c2 := nth 2 coords origin in
  let c3 := nth 3 coords origin in
  let minX := Rmin (Rmin (Rmin (fst c0) (fst c1)) (fst c2)) (fst c3) in
  let maxX := Rmax (Rmax (Rmax (fst c0) (fst c1)) (fst c2)) (fst c3) in
  let minY := Rmin (Rmin (Rmin (snd c0) (snd c1)) (snd c2)) (snd c3) in
  let maxY := Rmax (Rmax (Rmax (snd c0) (snd c1)) (snd c2)) (snd c3) in
  [(minX, maxY); (minX, minY); (maxX, minY); (maxX, maxY); (minX, maxY)].

Definition calcSize (c1 c2 : Coordinate) : R * R :=
  (Rabs (fst c1 - fst c2), Rabs (snd c1 - snd c2)).

Definition calcDistance (c1 c2 : Coordinate) : R :=
  let (width, height) := calcSize c1 c2 in
  sqrt (width * width + height * height).

(** ** JavaScript numeric operations *)

(** [Math.trunc] *)
Definition Rtrunc (r : R) : Z :=
  if Rle_dec 0 r then Int_part r else (- Int_part (- r))%Z.

(** The [%] operator on numbers (IEEE remainder of truncating division:
    the result has the sign of the dividend). *)
Definition jsRem (a b : R) : R := a - b * IZR (Rtrunc (a / b)).

(** [Math.atan2], without signed zeros. *)
Definition atan2 (y x : R) : R :=
  if Rlt_dec 0 x then atan (y / x)
  else if Rlt_dec x 0 then
    (if Rle_dec 0 y then atan (y / x) + PI else atan (y / x) - PI)
  else if Rlt_dec 0 y then PI / 2
  else if Rlt_dec y 0 then - (PI / 2)
  else 0.

(** ** Features, handles and notifications *)

(** A feature: its geometry and its optional ["angle"] property. *)
Record Feature := mkFeature { fgeom : Geometry; fangle : option R }.

(** [feat.get("angle") ?? 0] *)
Definition featureAngle (f : Feature) : R :=
  match fangle f with Some a => a | None => 0 end.

(** The features of the body layers, by identity. *)
Definition Store := nat -> Feature.

(** [feature.setGeometry(g)] on the feature [id]. *)
Definition setGeometry (st : Store) (id : nat) (g : Geometry) : Store :=
  fun j => if Nat.eqb j id then mkFeature g (fangle (st id)) else st j.

(** [feature.set("angle", a)] on the feature [id]. *)
Definition setAngle (st : Store) (id : nat) (a : R) : Store :=
  fun j => if Nat.eqb j id then mkFeature (fgeom (st id)) (Some a) else st j.

(** [TransformMode]: [""] is [MNone]. *)
Inductive TransformMode := MNone | MTranslate | MScale | MRotate.

(** [HandleFeature]: its geometry, its [body] (a reference to a feature of
    the store), its [mode] and its [index] (-1 by default).  The handles'
    styles are left to the styling subsystem and not modelled. *)
Record HandleFeature := mkHandle
  { hgeom : Geometry; body : nat; hmode : TransformMode; index : Z }.

(** The result of [forEachFeatureAtPixel]: the first feature under the
    pointer that passed the layer filter, has a geometry and is accepted by
    [shouldGetFeature]. *)
Inductive Pick := PBody (id : nat) | PHandle (hd : HandleFeature).

(** [TransformEventType] *)
Inductive TransformEventType :=
  | EMousedown | EMousemove | EMouseup
  | ETransformstart | ETransforming | ETransformend
  | ETranslatestart | ETranslating | ETranslateend
  | ERotatestart | ERotating | ERotateend
  | EScalestart | EScaling | EScaleend.

(** ** The oriented bounding box and the handle ring *)

Definition scaleHandlesLength : nat := 8.

(** The oriented-box construction that [handleDownEvent] (scale),
    [handleDragEvent] (scale) and [genHandles] each write out inline:
    undo the stored angle about the extent's center, take the extent,
    rearrange its ring, rotate it back. *)
Definition orientedBoxCoords (geom : Geometry) (angle : R) : list Coordinate :=
  let normalCenter := getCenter (getExtent geom) in
  let normalGeo := geomRotate (- angle) normalCenter geom in
  let normalExt := getExtent normalGeo in
  let polygon := fromExtent normalExt in
  let polygon := mkGeometry (gkind polygon) (rearrangeCoords (gcoords polygon)) in
  gcoords (geomRotate angle normalCenter polygon).

(** [Transform.calcScaleHandleCoord] *)
Definition calcScaleHandleCoord (coords : list Coordinate) (handleIdx : Z) : Coordinate :=
  let tl := nth 0 coords origin in
  let bl := nth 1 coords origin in
  let br := nth 2 coords origin in
  let tr := nth 3 coords origin in
  match handleIdx with
  | 0%Z => tl
  | 1%Z => getCenter (boundingExtent [tl; bl])
  | 2%Z => bl
  | 3%Z => getCenter (boundingExtent [bl; br])
  | 4%Z => br
  | 5%Z => getCenter (boundingExtent [br; tr])
  | 6%Z => tr
  | 7%Z => getCenter (boundingExtent [tr; tl])
  | _ => origin
  end.

(** [Transform.rotatePoint] *)
Definition rotatePoint (p anchor : Coordinate) (angle : R) : Coordinate :=
  ((fst p - fst anchor) * cos angle - (snd p - snd anchor) * sin angle + fst anchor,
   (fst p - fst anchor) * sin angle + (snd p - snd anchor) * cos angle + snd anchor).

(** [Transform.genTranslateHandle] *)
Definition genTranslateHandle (id : nat) (feat : Feature) : HandleFeature :=
  let geom := fgeom feat in
  match gkind geom with
  | GPoint => mkHandle (Point (nth 0 (gcoords geom) origin)) id MTranslate (-1)
  | GPolygon => mkHandle (fromExtent (getExtent geom)) id MTranslate (-1)
  end.

(** [Transform.genHandles]: the rotate handle, then the eight scale
    handles [i = 0 .. scaleHandlesLength - 1]. *)
Definition genHandles (id : nat) (feat : Feature) : list HandleFeature :=
  let geom := fgeom feat in
  match gkind geom with
  | GPoint => []
  | GPolygon =>
      let angle := featureAngle feat in
      let coords := orientedBoxCoords geom angle in
      let headCoord := calcScaleHandleCoord coords 7 in
      mkHandle (Point headCoord) id MRotate (-1)
      :: map (fun i => mkHandle (Point (calcScaleHandleCoord coords i)) id MScale i)
             (map Z.of_nat (seq 0 scaleHandlesLength))
  end.

(** The features [Transform.drawHandles] puts on the cleared handle layer. *)
Definition drawnHandles (st : Store) (sels : list nat) : list HandleFeature :=
  match sels with
  | [] => []
  | id0 :: rest =>
      genHandles id0 (st id0) ++ genTranslateHandle id0 (st id0)
      :: map (fun id => genTranslateHandle id (st id)) rest
  end.

(** ** The [Transform] interaction *)

Record RotationSelection := mkRotationSelection { rsAngle : R; center : Coordinate }.

Record ScalingSelection := mkScalingSelection
  { ssAngle : R; w : R; h : R; handleIdx : Z; oppositeIdx : Z;
    oppositeCoord : Coordinate; ssStartCoord : Coordinate }.

(** The fields of a [Transform] instance that the pointer handlers read or
    write.  [store] stands for the features of the body layers, shared
    with the map; [handleLayer] is the content of the handle layer's
    source; [events] is the sequence of [TransformEvent] types dispatched
    so far (their payload is the pointer event, [_startCoord] and the
    pointer coordinate). *)
Record Transform := mkTransform
  { store : Store;
    selections : list nat;
    prevSelections : list Feature;
    handleLayer : list HandleFeature;
    mode : TransformMode;
    isTransformed : bool;
    startCoord : Coordinate;
    prevCoord : Coordinate;
    rotationSelection : RotationSelection;
    scalingSelection : ScalingSelection;
    headInverted : bool;
    events : list TransformEventType }.

Section Setters.
Variable s : Transform.
Definition setStore x := mkTransform x (selections s) (prevSelections s) (handleLayer s) (mode s) (isTransformed s) (startCoord s) (prevCoord s) (rotationSelection s) (scalingSelection s) (headInverted s) (events s).
Definition setSelections x := mkTransform (store s) x (prevSelections s) (handleLayer s) (mode s) (isTransformed s) (startCoord s) (prevCoord s) (rotationSelection s) (scalingSelection s) (headInverted s) (events s).
Definition setPrevSelections x := mkTransform (store s) (selections s) x (handleLayer s) (mode s) (isTransformed s) (startCoord s) (prevCoord s) (rotationSelection s) (scalingSelection s) (headInverted s) (events s).
Definition setHandleLayer x := mkTransform (store s) (selections s) (prevSelections s) x (mode s) (isTransformed s) (startCoord s) (prevCoord s) (rotationSelection s) (scalingSelection s) (headInverted s) (events s).
Definition setMode x := mkTransform (store s) (selections s) (prevSelections s) (handleLayer s) x (isTransformed s) (startCoord s) (prevCoord s) (rotationSelection s) (scalingSelection s) (headInverted s) (events s).
Definition setIsTransformed x := mkTransform (store s) (selections s) (prevSelections s) (handleLayer s) (mode s) x (startCoord s) (prevCoord s) (rotationSelection s) (scalingSelection s) (headInverted s) (events s).
Definition setStartCoord x := mkTransform (store s) (selections s) (prevSelections s) (handleLayer s) (mode s) (isTransformed s) x (prevCoord s) (rotationSelection s) (scalingSelection s) (headInverted s) (events s).
Definition setPrevCoord x := mkTransform (store s) (selections s) (prevSelections s) (handleLayer s) (mode s) (isTransformed s) (startCoord s) x (rotationSelection s) (scalingSelection s) (headInverted s) (events s).
Definition setRotationSelection x := mkTransform (store s) (selections s) (prevSelections s) (handleLayer s) (mode s) (isTransformed s) (startCoord s) (prevCoord s) x (scalingSelection s) (headInverted s) (events s).
Definition setScalingSelection x := mkTransform (store s) (selections s) (prevSelections s) (handleLayer s) (mode s) (isTransformed s) (startCoord s) (prevCoord s) (rotationSelection s) x (headInverted s) (events s).
Definition setHeadInverted x := mkTransform (store s) (selections s) (prevSelections s) (handleLayer s) (mode s) (isTransformed s) (startCoord s) (prevCoord s) (rotationSelection s) (scalingSelection s) x (events s).
Definition dispatchTransformEvent (t : TransformEventType) := mkTransform (store s) (selections s) (prevSelections s) (handleLayer s) (mode s) (isTransformed s) (startCoord s) (prevCoord s) (rotationSelection s) (scalingSelection s) (headInverted s) (events s ++ [t]).
End Setters.

(** [Transform.drawHandles]: clear the handle layer and refill it. *)
Definition drawHandles (s : Transform) : Transform :=
  setHandleLayer s (drawnHandles (store s) (selections s)).

(** The [_selections] collection; its ["add"] and ["remove"] listeners
    (installed by the constructor) call [drawHandles]. *)
Definition selPush (id : nat) (s : Transform) : Transform :=
  drawHandles (setSelections s (selections s ++ [id])).

Definition selRemoveAt (i : nat) (s : Transform) : Transform :=
  drawHandles (setSelections s (firstn i (selections s) ++ skipn (S i) (selections s))).

(** [Collection.clear] pops the elements one by one, each pop firing
    ["remove"]; an empty collection fires nothing. *)
Definition selClear (s : Transform) : Transform :=
  match selections s with
  | [] => s
  | _ :: _ => drawHandles (setSelections s [])
  end.

(** [Array.prototype.indexOf]; [None] stands for [-1]. *)
Fixpoint indexOf (l : list nat) (x : nat) : option nat :=
  match l with
  | [] => None
  | y :: l' => if Nat.eqb y x then Some 0%nat
               else match indexOf l' x with Some i => Some (S i) | None => None end
  end.

(** [Transform.selectFeature]: [hit] is what the hit-test finds first,
    [additive] is [_addCondition(evt)]. *)
Definition selectFeature (s : Transform) (hit : option Pick) (additive : bool)
  : option Pick * Transform :=
  match hit with
  | None => (None, s)
  | Some (PHandle hd) => (Some (PHandle hd), s)
  | Some (PBody id) =>
      let s' :=
        match indexOf (selections s) id with
        | None => if additive then selPush id s else selPush id (selClear s)
        | Some i => if additive then selRemoveAt i s else s
        end in
      (Some (PBody id), s')
  end.

Definition startEvents (m : TransformMode) : list TransformEventType :=
  match m with
  | MTranslate => [ETranslatestart] | MRotate => [ERotatestart]
  | MScale => [EScalestart] | MNone => []
  end.

Definition dragEvents (m : TransformMode) : list TransformEventType :=
  match m with
  | MTranslate => [ETranslating] | MRotate => [ERotating]
  | MScale => [EScaling] | MNone => []
  end.

Definition endEvents (m : TransformMode) : list TransformEventType :=
  match m with
  | MTranslate => [ETranslateend] | MRotate => [ERotateend]
  | MScale => [EScaleend] | MNone => []
  end.

Definition dispatchAll (ts : list TransformEventType) (s : Transform) : Transform :=
  fold_left dispatchTransformEvent ts s.

(** [Math.round(Transform.scaleHandlesLength * 0.5)] *)
Definition halfRing : Z := 4.

(** The scale branch of [handleDownEvent]: the state recorded for the
    grabbed [feat] and scale handle [index]. *)
Definition initScaling (feat : Feature) (idx : Z) : ScalingSelection :=
  let angle := featureAngle feat in
  let coords := orientedBoxCoords (fgeom feat) angle in
  let oppIdx := Z.rem (idx + halfRing) (Z.of_nat scaleHandlesLength) in
  let oppCoord := calcScaleHandleCoord coords oppIdx in
  let start := rotatePoint (calcScaleHandleCoord coords idx) oppCoord (- angle) in
  mkScalingSelection angle
    (calcDistance (nth 1 coords origin) (nth 2 coords origin))
    (calcDistance (nth 0 coords origin) (nth 1 coords origin))
    idx oppIdx oppCoord start.

(** [Transform.handleDownEvent]: the boolean is its return value. *)
Definition handleDownEvent (s : Transform) (hit : option Pick) (additive : bool)
    (coord : Coordinate) : bool * Transform :=
  let (handleOrBody, s) := selectFeature s hit additive in
  let s := match handleOrBody with None => selClear s | Some _ => s end in
  let s := setPrevSelections s (map (store s) (selections s)) in
  let s := dispatchTransformEvent s EMousedown in
  match handleOrBody with
  | None => (false, s)
  | Some p =>
      let s := setStartCoord s coord in
      let s :=
        match p with
        | PBody _ => setPrevCoord (setMode s MTranslate) coord
        | PHandle hd =>
            let s := setMode s (hmode hd) in
            let feat := store s (body hd) in
            let geom := fgeom feat in
            match hmode hd with
            | MTranslate => setPrevCoord s coord
            | MRotate =>
                let c := getCenter (getExtent geom) in
                setRotationSelection s
                  (mkRotationSelection (atan2 (snd coord - snd c) (fst coord - fst c)) c)
            | MScale => setScalingSelection s (initScaling feat (index hd))
            | MNone => s
            end
        end in
      let s := dispatchAll (startEvents (mode s)) s in
      (true, dispatchTransformEvent s ETransformstart)
  end.

(** [this._selections.forEach((sel) => sel.getGeometry().translate(dx, dy))] *)
Definition translateSelections (dx dy : R) (sels : list nat) (st : Store) : Store :=
  fold_left (fun st id => setGeometry st id (geomTranslate dx dy (fgeom (st id)))) sels st.

(** [this._prevSelections.forEach((sel, i) => ... this._selections.item(i).setGeometry(F(sel)))]:
    the [i]-th snapshot entry gives the geometry of the [i]-th selected
    feature.  The snapshot is taken from the selection at pointer-down and
    no drag frame changes either, so the two lists have the same length;
    a missing [item(i)] (where the source would throw) does not occur. *)
Fixpoint setGeometries (F : Feature -> Geometry) (prev : list Feature) (sels : list nat)
    (st : Store) : Store :=
  match prev, sels with
  | sel :: prev', id :: sels' => setGeometries F prev' sels' (setGeometry st id (F sel))
  | _, _ => st
  end.

(** The geometry the rotate branch gives the live feature: the snapshot's
    geometry, cloned and rotated by [da] about its own extent's center. *)
Definition rotatedGeometry (da : R) (sel : Feature) : Geometry :=
  let geom := fgeom sel in
  geomRotate da (getCenter (getExtent geom)) geom.

(** What the rotate branch does to the ["angle"] property of [sel], the
    snapshot entry it reads: [sel.set("angle", (angle + da) % (2 * Math.PI))]. *)
Definition rotatedAngle (da : R) (sel : Feature) : Feature :=
  match fangle sel with
  | Some a => mkFeature (fgeom sel) (Some (jsRem (a + da) (2 * PI)))
  | None => sel
  end.

(** The [switch (handleIdx)] of the scale branch: [(dx, dy)] from the
    start point [(sx, sy)] and the local pointer [(x, y)]. *)
Definition scaleDeltas (handleIdx : Z) (sx sy x y : R) : R * R :=
  match handleIdx with
  | 0%Z => (sx - x, y - sy)
  | 1%Z => (sx - x, 0)
  | 2%Z => (sx - x, sy - y)
  | 3%Z => (0, sy - y)
  | 4%Z => (x - sx, sy - y)
  | 5%Z => (x - sx, 0)
  | 6%Z => (x - sx, y - sy)
  | 7%Z => (0, y - sy)
  | _ => (0, 0)
  end.

(** [(scaleX, scaleY)] of a scale frame at pointer [p].  Division is
    Rocq's: [x / 0 = 0], where JavaScript gives an infinity or NaN.  So
    this agrees with the source only when [w] and [h] are nonzero (an
    oriented box of nonzero width and height); the theorems about scale
    frames of an arbitrary box assume that. *)
Definition scaleFactors (ss : ScalingSelection) (p : Coordinate) : R * R :=
  let local := rotatePoint p (oppositeCoord ss) (- ssAngle ss) in
  let d := scaleDeltas (handleIdx ss) (fst (ssStartCoord ss)) (snd (ssStartCoord ss))
             (fst local) (snd local) in
  (fst d / w ss + 1, snd d / h ss + 1).

(** The geometry the scale branch gives the live feature: the snapshot
    entry [sel] scaled about its own anchor, the ring point [oppIdx] of its
    own oriented box, in its own angle's frame. *)
Definition scaledGeometry (oppIdx : Z) (scaleX scaleY : R) (sel : Feature) : Geometry :=
  let angle := featureAngle sel in
  let geom := fgeom sel in
  let coords := orientedBoxCoords geom angle in
  let oppCoord := calcScaleHandleCoord coords oppIdx in
  geomRotate angle oppCoord (geomScale scaleX scaleY oppCoord (geomRotate (- angle) oppCoord geom)).

(** [Transform.handleDragEvent].  In the rotate branch the source sets the
    angle of [sel] and the geometry of [_selections.item(i)] in the same
    [forEach]; the two writes go to different objects and the geometry is
    computed before the angle is written, so doing them in two passes
    gives the same state. *)
Definition handleDragEvent (s : Transform) (p : Coordinate) : Transform :=
  let s := setHandleLayer s [] in
  let s := setIsTransformed s true in
  let s :=
    match mode s with
    | MTranslate =>
        let x := fst p in let y := snd p in
        let px := fst (prevCoord s) in let py := snd (prevCoord s) in
        let s := setPrevCoord s (x, y) in
        setStore s (translateSelections (x - px) (y - py) (selections s) (store s))
    | MRotate =>
        let rs := rotationSelection s in
        let da := atan2 (snd p - snd (center rs)) (fst p - fst (center rs)) - rsAngle rs in
        let st := setGeometries (rotatedGeometry da) (prevSelections s) (selections s) (store s) in
        setStore (setPrevSelections s (map (rotatedAngle da) (prevSelections s))) st
    | MScale =>
        let ss := scalingSelection s in
        let sf := scaleFactors ss p in
        let s := setHeadInverted s (if Rlt_dec (snd sf) 0 then true else false) in
        setStore s (setGeometries (scaledGeometry (oppositeIdx ss) (fst sf) (snd sf))
                      (prevSelections s) (selections s) (store s))
    | MNone => s
    end in
  let s := dispatchAll (dragEvents (mode s)) s in
  dispatchTransformEvent s ETransforming.

(** The head-inversion correction of [handleUpEvent] on one feature. *)
Definition flipFeature (st : Store) (id : nat) : Store :=
  let sel := st id in
  let geom := fgeom sel in
  match fangle sel with
  | Some a =>
      fun j => if Nat.eqb j id
               then mkFeature (geomRotate PI (getCenter (getExtent geom)) geom)
                              (Some (jsRem (a + PI) (2 * PI)))
               else st j
  | None => st
  end.

(** What [flipFeature st id] leaves at [id], as a function of [st id]. *)
Definition flipped (f : Feature) : Feature :=
  match fangle f with
  | Some a => mkFeature (geomRotate PI (getCenter (getExtent (fgeom f))) (fgeom f))
                        (Some (jsRem (a + PI) (2 * PI)))
  | None => f
  end.

Definition isScale (m : TransformMode) : bool :=
  match m with MScale => true | _ => false end.

(** [Transform.handleUpEvent] (it returns [false]). *)
Definition handleUpEvent (s : Transform) : Transform :=
  let s := if isScale (mode s) && headInverted s
           then setStore s (fold_left flipFeature (selections s) (store s))
           else s in
  let s := dispatchTransformEvent s EMouseup in
  let s := if isTransformed s
           then dispatchTransformEvent (dispatchAll (endEvents (mode s)) s) ETransformend
           else s in
  let s := drawHandles s in
  let s := setMode s MNone in
  setIsTransformed s false.

(** [Transform.handleMoveEvent] *)
Definition handleMoveEvent (s : Transform) : Transform :=
  dispatchTransformEvent s EMousemove.

(** Drag frames at the successive pointer positions [ps]. *)
Definition dragFrames (s : Transform) (ps : list Coordinate) : Transform :=
  fold_left handleDragEvent ps s.

(** ** Concrete configurations used by the scenarios *)

(** A [Transform] just constructed over the body features [st]
    (the field initialisers of the class). *)
Definition initialTransform (st : Store) : Transform :=
  mkTransform st [] [] [] MNone false origin origin
    (mkRotationSelection 0 origin)
    (mkScalingSelection 0 0 0 (-1) (-1) origin origin) false [].

(** The square with corners (0,0), (10,0), (10,10), (0,10). *)
Definition square : Geometry :=
  mkGeometry GPolygon [(0, 0); (10, 0); (10, 10); (0, 10); (0, 0)].

(** A body layer whose feature [0] is the square, with ["angle"] property
    [oa]; the other identities are not used by the scenarios. *)
Definition squareStore (oa : option R) : Store := fun _ => mkFeature square oa.

(** The square selected by a click (press and release) on its body. *)
Definition squareSelected (oa : option R) : Transform :=
  handleUpEvent (snd (handleDownEvent (initialTransform (squareStore oa))
                                      (Some (PBody 0)) false (5, 5))).

(** The scale handle of ring index [i] drawn for the square, at [c]. *)
Definition squareScaleHandle (c : Coordinate) (i : Z) : HandleFeature :=
  mkHandle (Point c) 0 MScale i.

(** The rotate handle drawn for the square (ring index 7, top middle). *)
Definition squareRotateHandle : HandleFeature :=
  mkHandle (Point (5, 10)) 0 MRotate (-1).

(** The handles drawn for the square when its angle is 0. *)
Definition squareHandles : list HandleFeature :=
  [squareRotateHandle;
   squareScaleHandle (0, 10) 0; squareScaleHandle (0, 5) 1;
   squareScaleHandle (0, 0) 2; squareScaleHandle (5, 0) 3;
   squareScaleHandle (10, 0) 4; squareScaleHandle (10, 5) 5;
   squareScaleHandle (10, 10) 6; squareScaleHandle (5, 10) 7;
   mkHandle (fromExtent (mkExtent 0 0 10 10)) 0 MTranslate (-1)].

(** The square, selected, with its scale handle of ring index 6 (at
    (10,10)) pressed. *)
Definition squareScalePressed (oa : option R) : Transform :=
  snd (handleDownEvent (squareSelected oa) (Some (PHandle (squareScaleHandle (10, 10) 6)))
                       false (10, 10)).

(** The square as the scale handle 6 leaves it after a frame at [p]. *)
Definition squareScaledTo (p : Coordinate) : Geometry :=
  mkGeometry GPolygon [(0, 0); (fst p, 0); (fst p, snd p); (0, snd p); (0, 0)].

(** The square, selected, with its rotate handle (at (5,10)) pressed. *)
Definition squareRotatePressed (oa : option R) : Transform :=
  snd (handleDownEvent (squareSelected oa) (Some (PHandle squareRotateHandle)) false (5, 10)).

(** * Lemmas *)

(** ** Arithmetic of the primitives *)

Ltac rminmax :=
  repeat match goal with
  | |- context [Rmin ?a ?b] =>
      first [rewrite (Rmin_left a b) by lra | rewrite (Rmin_right a b) by lra]
  | |- context [Rmax ?a ?b] =>
      first [rewrite (Rmax_left a b) by lra | rewrite (Rmax_right a b) by lra]
  end.

Lemma pair_eq (a b c d : R) : a = c -> b = d -> (a, b) = (c, d).
Proof. intros -> ->; reflexivity. Qed.

Lemma geometry_eq k1 k2 l1 l2 : k1 = k2 -> l1 = l2 -> mkGeometry k1 l1 = mkGeometry k2 l2.
Proof. intros -> ->; reflexivity. Qed.

Lemma handle_eq g1 g2 b m i : g1 = g2 -> mkHandle g1 b m i = mkHandle g2 b m i.
Proof. intros ->; reflexivity. Qed.

Lemma feature_eq g1 g2 a : g1 = g2 -> mkFeature g1 a = mkFeature g2 a.
Proof. intros ->; reflexivity. Qed.

(** Split an equation between handles, geometries, lists and
    coordinates into equations between their real components. *)
Ltac coord_eq :=
  repeat match goal with
  | |- ?x = ?x => reflexivity
  | |- mkFeature _ _ = mkFeature _ _ => apply feature_eq
  | |- mkHandle _ _ _ _ = mkHandle _ _ _ _ => apply handle_eq
  | |- mkGeometry _ _ = mkGeometry _ _ => apply geometry_eq; [reflexivity|]
  | |- cons _ _ = cons _ _ => apply f_equal2
  | |- @nil _ = @nil _ => reflexivity
  | |- (_, _) = (_, _) => apply pair_eq
  end.

Ltac split_and := repeat match goal with |- _ /\ _ => split end.

Lemma rotateCoordinate_0 c p : rotateCoordinate 0 c p = p.
Proof.
  destruct p, c; unfold rotateCoordinate; simpl; rewrite cos_0, sin_0.
  apply pair_eq; ring.
Qed.

Lemma geomRotate_0 c g : geomRotate 0 c g = g.
Proof.
  destruct g as [k l]; unfold geomRotate; simpl; f_equal.
  induction l as [|p l IH]; simpl; [reflexivity|].
  rewrite rotateCoordinate_0, IH; reflexivity.
Qed.

Lemma rotatePoint_0 p c : rotatePoint p c 0 = p.
Proof.
  destruct p, c; unfold rotatePoint; simpl; rewrite cos_0, sin_0.
  apply pair_eq; ring.
Qed.

Lemma orientedBoxCoords_0 g :
  orientedBoxCoords g 0 = rearrangeCoords (gcoords (fromExtent (getExtent g))).
Proof.
  unfold orientedBoxCoords; rewrite Ropp_0, !geomRotate_0; reflexivity.
Qed.

Lemma center_pair p q :
  getCenter (boundingExtent [p; q]) = ((fst p + fst q) / 2, (snd p + snd q) / 2).
Proof.
  unfold getCenter; simpl.
  apply pair_eq; unfold Rmin, Rmax;
    repeat destruct Rle_dec; lra.
Qed.

(** ** The handlers, one case at a time *)

Lemma handleDragEvent_translate s p :
  mode s = MTranslate ->
  handleDragEvent s p =
  mkTransform
    (translateSelections (fst p - fst (prevCoord s)) (snd p - snd (prevCoord s))
       (selections s) (store s))
    (selections s) (prevSelections s) [] MTranslate true (startCoord s) (fst p, snd p)
    (rotationSelection s) (scalingSelection s) (headInverted s)
    ((events s ++ [ETranslating]) ++ [ETransforming]).
Proof. destruct s; intros Hm; cbn in Hm; subst; reflexivity. Qed.

Lemma handleDragEvent_rotate s p :
  mode s = MRotate ->
  let rs := rotationSelection s in
  let da := atan2 (snd p - snd (center rs)) (fst p - fst (center rs)) - rsAngle rs in
  handleDragEvent s p =
  mkTransform
    (setGeometries (rotatedGeometry da) (prevSelections s) (selections s) (store s))
    (selections s) (map (rotatedAngle da) (prevSelections s)) [] MRotate true
    (startCoord s) (prevCoord s) (rotationSelection s) (scalingSelection s) (headInverted s)
    ((events s ++ [ERotating]) ++ [ETransforming]).
Proof. destruct s; intros Hm; cbn in Hm; subst; reflexivity. Qed.

Lemma handleDragEvent_scale s p :
  mode s = MScale ->
  let sf := scaleFactors (scalingSelection s) p in
  handleDragEvent s p =
  mkTransform
    (setGeometries (scaledGeometry (oppositeIdx (scalingSelection s)) (fst sf) (snd sf))
       (prevSelections s) (selections s) (store s))
    (selections s) (prevSelections s) [] MScale true
    (startCoord s) (prevCoord s) (rotationSelection s) (scalingSelection s)
    (if Rlt_dec (snd sf) 0 then true else false)
    ((events s ++ [EScaling]) ++ [ETransforming]).
Proof. destruct s; intros Hm; cbn in Hm; subst; reflexivity. Qed.

Lemma handleUpEvent_eq s :
  handleUpEvent s =
  let st := if isScale (mode s) && headInverted s
            then fold_left flipFeature (selections s) (store s) else store s in
  mkTransform st (selections s) (prevSelections s) (drawnHandles st (selections s))
    MNone false (startCoord s) (prevCoord s) (rotationSelection s) (scalingSelection s)
    (headInverted s)
    (if isTransformed s
     then ((events s ++ [EMouseup]) ++ endEvents (mode s)) ++ [ETransformend]
     else events s ++ [EMouseup]).
Proof.
  destruct s as [st sels prev hl m it sc pc rs ss hi ev]; cbn [mode headInverted isTransformed].
  destruct m, hi, it; try reflexivity;
    change (endEvents MNone) with (@nil TransformEventType); rewrite app_nil_r; reflexivity.
Qed.

(** ** The square *)

Lemma square_extent : getExtent square = mkExtent 0 0 10 10.
Proof. unfold getExtent, square; simpl; unfold extendCoordinate; simpl; rminmax; reflexivity. Qed.

Lemma square_box :
  orientedBoxCoords square 0 = [(0, 10); (0, 0); (10, 0); (10, 10); (0, 10)].
Proof.
  rewrite orientedBoxCoords_0, square_extent; unfold rearrangeCoords; simpl.
  rminmax; reflexivity.
Qed.

Lemma squareSelected_eq oa :
  squareSelected oa =
  mkTransform (squareStore oa) [0%nat] [mkFeature square oa]
    (drawnHandles (squareStore oa) [0%nat]) MNone false (5, 5) (5, 5)
    (mkRotationSelection 0 origin) (mkScalingSelection 0 0 0 (-1) (-1) origin origin)
    false [EMousedown; ETranslatestart; ETransformstart; EMouseup].
Proof. reflexivity. Qed.

Lemma square_handles oa :
  featureAngle (mkFeature square oa) = 0 ->
  drawnHandles (squareStore oa) [0%nat] = squareHandles.
Proof.
  intros Hoa; unfold drawnHandles, genHandles, genTranslateHandle, squareStore.
  cbn [fgeom gkind square]. rewrite Hoa, square_box, square_extent.
  unfold calcScaleHandleCoord; cbn -[getCenter boundingExtent].
  rewrite !center_pair; cbn [fst snd].
  unfold squareHandles, squareScaleHandle, squareRotateHandle, Point.
  coord_eq; lra.
Qed.

Lemma calcDistance_square_side :
  calcDistance (0, 0) (10, 0) = 10 /\ calcDistance (0, 10) (0, 0) = 10.
Proof.
  unfold calcDistance, calcSize; simpl.
  replace (Rabs (0 - 10)) with 10 by (rewrite Rabs_left; lra).
  replace (Rabs (0 - 0)) with 0 by (rewrite Rminus_diag, Rabs_R0; reflexivity).
  replace (Rabs (10 - 0)) with 10 by (rewrite Rabs_right; lra).
  replace (10 * 10 + 0 * 0) with (10 * 10) by ring.
  replace (0 * 0 + 10 * 10) with (10 * 10) by ring.
  rewrite sqrt_square by lra; split; reflexivity.
Qed.

Lemma initScaling_square oa :
  featureAngle (mkFeature square oa) = 0 ->
  initScaling (mkFeature square oa) 6 = mkScalingSelection 0 10 10 6 2 (0, 0) (10, 10).
Proof.
  intros Hoa; unfold initScaling; cbn [fgeom]; rewrite Hoa, square_box.
  destruct calcDistance_square_side as [D1 D2].
  cbn -[calcDistance rotatePoint]. rewrite D1, D2, Ropp_0, rotatePoint_0. reflexivity.
Qed.

Lemma squareScalePressed_eq oa :
  featureAngle (mkFeature square oa) = 0 ->
  squareScalePressed oa =
  mkTransform (squareStore oa) [0%nat] [mkFeature square oa]
    (drawnHandles (squareStore oa) [0%nat]) MScale false (10, 10) (5, 5)
    (mkRotationSelection 0 origin) (mkScalingSelection 0 10 10 6 2 (0, 0) (10, 10))
    false [EMousedown; ETranslatestart; ETransformstart; EMouseup;
           EMousedown; EScalestart; ETransformstart].
Proof.
  intros Hoa; rewrite <- (initScaling_square oa Hoa).
  unfold squareScalePressed; rewrite squareSelected_eq; reflexivity.
Qed.

Lemma scaledGeometry_square oa sx sy :
  featureAngle (mkFeature square oa) = 0 ->
  scaledGeometry 2 sx sy (mkFeature square oa) =
  mkGeometry GPolygon [(0, 0); (sx * 10, 0); (sx * 10, sy * 10); (0, sy * 10); (0, 0)].
Proof.
  intros Hoa; unfold scaledGeometry; cbn [fgeom]; rewrite Hoa, square_box.
  cbn [calcScaleHandleCoord nth]. rewrite Ropp_0, !geomRotate_0.
  unfold geomScale, scaleCoordinate, square; cbn [map gcoords gkind fst snd].
  coord_eq; ring.
Qed.

Lemma scaleFactors_square p :
  scaleFactors (mkScalingSelection 0 10 10 6 2 (0, 0) (10, 10)) p =
  (fst p / 10, snd p / 10).
Proof.
  unfold scaleFactors; cbn [ssAngle oppositeCoord handleIdx ssStartCoord w h].
  rewrite Ropp_0, rotatePoint_0; simpl; apply pair_eq; field.
Qed.

(** One scale frame at [p] after the press on handle 6. *)
Lemma squareScalePressed_drag oa p :
  featureAngle (mkFeature square oa) = 0 ->
  handleDragEvent (squareScalePressed oa) p =
  mkTransform (setGeometry (squareStore oa) 0 (squareScaledTo p)) [0%nat] [mkFeature square oa]
    [] MScale true (10, 10) (5, 5)
    (mkRotationSelection 0 origin) (mkScalingSelection 0 10 10 6 2 (0, 0) (10, 10))
    (if Rlt_dec (snd p / 10) 0 then true else false)
    [EMousedown; ETranslatestart; ETransformstart; EMouseup;
     EMousedown; EScalestart; ETransformstart; EScaling; ETransforming].
Proof.
  intros Hoa; rewrite (squareScalePressed_eq oa Hoa).
  rewrite handleDragEvent_scale by reflexivity.
  cbn [store selections prevSelections mode handleLayer isTransformed headInverted
       scalingSelection startCoord prevCoord rotationSelection events oppositeIdx].
  rewrite scaleFactors_square; cbn [setGeometries fst snd app].
  rewrite scaledGeometry_square by exact Hoa.
  replace (fst p / 10 * 10) with (fst p) by field.
  replace (snd p / 10 * 10) with (snd p) by field.
  reflexivity.
Qed.

(** ** Stores *)

Lemma setGeometry_same st id g : setGeometry st id g id = mkFeature g (fangle (st id)).
Proof. unfold setGeometry; rewrite Nat.eqb_refl; reflexivity. Qed.

Lemma setGeometry_other st id g j : j <> id -> setGeometry st id g j = st j.
Proof. intros H; unfold setGeometry; apply Nat.eqb_neq in H; rewrite H; reflexivity. Qed.

Lemma setGeometries_notin F prev sels st j :
  ~ In j sels -> setGeometries F prev sels st j = st j.
Proof.
  revert prev st; induction sels as [|id sels IH]; intros prev st Hj;
    destruct prev as [|f prev]; simpl; try reflexivity.
  simpl in Hj; rewrite IH by tauto; apply setGeometry_other; intros ->; tauto.
Qed.

Lemma setGeometries_at F prev sels st i id f :
  NoDup sels -> nth_error sels i = Some id -> nth_error prev i = Some f ->
  setGeometries F prev sels st id = mkFeature (F f) (fangle (st id)).
Proof.
  revert prev st i; induction sels as [|id' sels IH]; intros prev st i Hnd Hs Hp.
  - destruct i; discriminate.
  - apply NoDup_cons_iff in Hnd as [Hnin Hnd].
    destruct prev as [|f' prev]; [destruct i; discriminate|].
    destruct i as [|i]; simpl in Hs, Hp |- *.
    + injection Hs as <-; injection Hp as <-.
      rewrite setGeometries_notin by exact Hnin; apply setGeometry_same.
    + rewrite (IH prev _ i Hnd Hs Hp).
      assert (id <> id') by (intros ->; apply Hnin; eapply nth_error_In; eauto).
      rewrite setGeometry_other by assumption; reflexivity.
Qed.

Lemma setGeometries_angle F prev sels st j :
  fangle (setGeometries F prev sels st j) = fangle (st j).
Proof.
  revert prev st; induction sels as [|id sels IH]; intros prev st;
    destruct prev; simpl; try reflexivity.
  rewrite IH; unfold setGeometry; destruct (Nat.eqb j id) eqn:E; [apply Nat.eqb_eq in E; subst|];
    reflexivity.
Qed.

Lemma translateSelections_notin dx dy sels st j :
  ~ In j sels -> translateSelections dx dy sels st j = st j.
Proof.
  unfold translateSelections; revert st; induction sels as [|id sels IH]; intros st Hj;
    simpl; [reflexivity|].
  simpl in Hj; rewrite IH by tauto; apply setGeometry_other; intros ->; tauto.
Qed.

Lemma translateSelections_in dx dy sels st j :
  NoDup sels -> In j sels ->
  translateSelections dx dy sels st j =
  mkFeature (geomTranslate dx dy (fgeom (st j))) (fangle (st j)).
Proof.
  intros Hnd Hj; pose proof (translateSelections_notin dx dy) as Hn.
  unfold translateSelections in *; revert st; induction sels as [|id sels IH]; intros st;
    [destruct Hj|].
  apply NoDup_cons_iff in Hnd as [Hnin Hnd]; simpl.
  destruct (Nat.eq_dec j id) as [->|Hne].
  - rewrite Hn by exact Hnin; apply setGeometry_same.
  - destruct Hj as [->|Hj]; [congruence|].
    rewrite IH by assumption; rewrite !setGeometry_other by exact Hne; reflexivity.
Qed.

Lemma geomTranslate_twice a b c d g :
  geomTranslate c d (geomTranslate a b g) = geomTranslate (a + c) (b + d) g.
Proof.
  destruct g as [k l]; unfold geomTranslate; simpl; f_equal.
  rewrite map_map; apply map_ext; intros [x y]; unfold translateCoordinate; simpl.
  apply pair_eq; ring.
Qed.

Lemma geomTranslate_0 g : geomTranslate 0 0 g = g.
Proof.
  destruct g as [k l]; unfold geomTranslate; simpl; f_equal.
  induction l as [|[x y] l IH]; simpl; [reflexivity|].
  unfold translateCoordinate at 1; simpl; rewrite IH, !Rplus_0_r; reflexivity.
Qed.

Lemma geomTranslate_ext a b c d g : a = c -> b = d -> geomTranslate a b g = geomTranslate c d g.
Proof. intros -> ->; reflexivity. Qed.

Lemma last_cons_default {A} (ps : list A) p d : last (p :: ps) d = last ps p.
Proof.
  revert p d; induction ps as [|q ps IH]; intros p d; [reflexivity|].
  change (last (q :: ps) d = last (q :: ps) p); rewrite !IH; reflexivity.
Qed.

(** ** The selection collection *)

Lemma indexOf_none l x : indexOf l x = None -> ~ In x l.
Proof.
  induction l as [|y l IH]; simpl; [tauto|].
  destruct (Nat.eqb y x) eqn:E; [discriminate|].
  apply Nat.eqb_neq in E; destruct (indexOf l x); [discriminate|].
  intros _ [->|H]; [congruence|exact (IH eq_refl H)].
Qed.

Lemma indexOf_some l x i : indexOf l x = Some i -> nth_error l i = Some x.
Proof.
  revert i; induction l as [|y l IH]; intros i; simpl; [discriminate|].
  destruct (Nat.eqb y x) eqn:E.
  - apply Nat.eqb_eq in E; intros H; injection H as <-; subst; reflexivity.
  - destruct (indexOf l x) as [j|]; [|discriminate].
    intros H; injection H as <-; simpl; apply IH; reflexivity.
Qed.

Lemma In_indexOf l x : In x l -> exists i, indexOf l x = Some i.
Proof.
  intros Hx; destruct (indexOf l x) as [i|] eqn:E; [eauto|].
  exfalso; exact (indexOf_none l x E Hx).
Qed.

Lemma NoDup_snoc (l : list nat) x : NoDup l -> ~ In x l -> NoDup (l ++ [x]).
Proof.
  induction l as [|y l IH]; intros Hnd Hx; simpl; [constructor; [tauto|constructor]|].
  apply NoDup_cons_iff in Hnd as [Hy Hnd]; constructor.
  - rewrite in_app_iff; simpl in Hx |- *; intuition.
  - apply IH; simpl in Hx; tauto.
Qed.

Lemma firstn_skipn_split {A} (l1 l2 : list A) x :
  firstn (length l1) (l1 ++ x :: l2) = l1 /\ skipn (S (length l1)) (l1 ++ x :: l2) = l2.
Proof.
  induction l1 as [|y l1 IH]; [split; reflexivity|].
  destruct IH as [H1 H2]; split; [cbn [length firstn app]; rewrite H1; reflexivity|exact H2].
Qed.

(** Removing the entry [i] of a duplicate-free list. *)
Lemma remove_at_spec (l : list nat) i x :
  NoDup l -> nth_error l i = Some x ->
  let l' := firstn i l ++ skipn (S i) l in
  NoDup l' /\ ~ In x l' /\ (forall j, In j l' <-> In j l /\ j <> x).
Proof.
  intros Hnd Hi; destruct (nth_error_split l i Hi) as (l1 & l2 & -> & <-).
  destruct (firstn_skipn_split l1 l2 x) as [-> ->]; cbv zeta.
  split; [exact (NoDup_remove_1 _ _ _ Hnd)|].
  split; [exact (NoDup_remove_2 _ _ _ Hnd)|].
  pose proof (NoDup_remove_2 _ _ _ Hnd) as Hx.
  rewrite in_app_iff in Hx; intros j; rewrite !in_app_iff; simpl; split.
  - intros Hj; split; [tauto|intros ->; tauto].
  - intros [Hj Hne]; intuition congruence.
Qed.

(** What a pointer-down on a body leaves besides the selection and the
    handle layer. *)
Lemma selectFeature_body_fields s id add :
  let s1 := snd (selectFeature s (Some (PBody id)) add) in
  store s1 = store s /\ isTransformed s1 = isTransformed s /\
  headInverted s1 = headInverted s /\ events s1 = events s.
Proof.
  cbn [selectFeature snd]; destruct (indexOf (selections s) id), add;
    unfold selPush, selRemoveAt, selClear; try destruct (selections s);
    cbn; split_and; reflexivity.
Qed.

Lemma selectFeature_body_nodup s id add :
  NoDup (selections s) -> NoDup (selections (snd (selectFeature s (Some (PBody id)) add))).
Proof.
  intros Hnd; cbn [selectFeature snd].
  destruct (indexOf (selections s) id) as [i|] eqn:E; destruct add.
  - apply (remove_at_spec _ i id Hnd (indexOf_some _ _ _ E)).
  - exact Hnd.
  - apply NoDup_snoc; [exact Hnd|exact (indexOf_none _ _ E)].
  - unfold selPush, selClear; destruct (selections s) eqn:Es; cbn; [rewrite Es|];
      repeat constructor; simpl; tauto.
Qed.

Lemma handleDownEvent_body s id add c :
  handleDownEvent s (Some (PBody id)) add c =
  let s1 := snd (selectFeature s (Some (PBody id)) add) in
  (true, mkTransform (store s1) (selections s1) (map (store s1) (selections s1))
           (handleLayer s1) MTranslate (isTransformed s1) c c (rotationSelection s1)
           (scalingSelection s1) (headInverted s1)
           (((events s1 ++ [EMousedown]) ++ [ETranslatestart]) ++ [ETransformstart])).
Proof. reflexivity. Qed.

Lemma handleDownEvent_handle s hd add c :
  handleDownEvent s (Some (PHandle hd)) add c =
  let feat := store s (body hd) in
  let cc := getCenter (getExtent (fgeom feat)) in
  (true, mkTransform (store s) (selections s) (map (store s) (selections s))
           (handleLayer s) (hmode hd) (isTransformed s) c
           (match hmode hd with MTranslate => c | _ => prevCoord s end)
           (match hmode hd with
            | MRotate => mkRotationSelection (atan2 (snd c - snd cc) (fst c - fst cc)) cc
            | _ => rotationSelection s end)
           (match hmode hd with
            | MScale => initScaling feat (index hd)
            | _ => scalingSelection s end)
           (headInverted s)
           (((events s ++ [EMousedown]) ++ startEvents (hmode hd)) ++ [ETransformstart])).
Proof.
  unfold handleDownEvent; cbn [selectFeature]; destruct (hmode hd); try reflexivity.
  cbn; rewrite app_nil_r; reflexivity.
Qed.

(** What a pointer-down keeps, and what it sets when it starts a gesture. *)
Lemma handleDownEvent_facts s hit add c :
  NoDup (selections s) ->
  let s1 := snd (handleDownEvent s hit add c) in
  store s1 = store s /\ NoDup (selections s1) /\ headInverted s1 = headInverted s /\
  isTransformed s1 = isTransformed s /\
  (fst (handleDownEvent s hit add c) = true ->
   events s1 = ((events s ++ [EMousedown]) ++ startEvents (mode s1)) ++ [ETransformstart] /\
   (mode s1 = MTranslate -> prevCoord s1 = c)).
Proof.
  intros Hnd; destruct hit as [[id|hd]|].
  - rewrite handleDownEvent_body; cbv zeta.
    cbn [fst snd store selections headInverted isTransformed events mode prevCoord].
    destruct (selectFeature_body_fields s id add) as (H1 & H2 & H3 & H4).
    rewrite H1, H2, H3, H4; split_and; auto using selectFeature_body_nodup.
  - rewrite handleDownEvent_handle; cbv zeta.
    cbn [fst snd store selections headInverted isTransformed events mode prevCoord].
    split_and; auto; intros _; split; [reflexivity|intros Hm; rewrite Hm; reflexivity].
  - unfold handleDownEvent; cbn [selectFeature]; unfold selClear.
    destruct (selections s) eqn:Es; cbn; [rewrite Es|]; split_and; try reflexivity;
      try discriminate; [exact Hnd|constructor].
Qed.

(** Translate frames compose: after frames at [ps] every selected
    feature is moved by the last pointer position minus the reference
    point the frames started from. *)
Lemma translate_frames ps s :
  mode s = MTranslate -> NoDup (selections s) ->
  let s' := dragFrames s ps in
  let B := last ps (prevCoord s) in
  mode s' = MTranslate /\ selections s' = selections s /\ prevCoord s' = B /\
  (forall j, In j (selections s) ->
     store s' j =
     mkFeature (geomTranslate (fst B - fst (prevCoord s)) (snd B - snd (prevCoord s))
                  (fgeom (store s j))) (fangle (store s j))) /\
  (forall j, ~ In j (selections s) -> store s' j = store s j).
Proof.
  revert s; induction ps as [|[px py] ps IH]; intros s Hm Hnd; cbv zeta.
  - cbn [dragFrames fold_left last]; split_and; auto.
    intros j _; rewrite (geomTranslate_ext _ _ 0 0) by ring; rewrite geomTranslate_0.
    destruct (store s j); reflexivity.
  - change (dragFrames s ((px, py) :: ps)) with (dragFrames (handleDragEvent s (px, py)) ps).
    rewrite last_cons_default; rewrite handleDragEvent_translate by exact Hm.
    pose proof (IH (mkTransform
      (translateSelections (fst (px, py) - fst (prevCoord s)) (snd (px, py) - snd (prevCoord s))
         (selections s) (store s))
      (selections s) (prevSelections s) [] MTranslate true (startCoord s)
      (fst (px, py), snd (px, py)) (rotationSelection s) (scalingSelection s)
      (headInverted s) ((events s ++ [ETranslating]) ++ [ETransforming])) eq_refl Hnd) as IH'.
    cbv zeta in IH'; cbn [mode selections prevCoord store fst snd] in IH' |- *.
    destruct IH' as (Hm' & Hs' & Hp' & Hin & Hout); split_and; auto.
    + intros j Hj; rewrite Hin by exact Hj; rewrite translateSelections_in by assumption.
      cbn [fgeom fangle]; rewrite geomTranslate_twice.
      apply feature_eq, geomTranslate_ext; ring.
    + intros j Hj; rewrite Hout by exact Hj; apply translateSelections_notin, Hj.
Qed.

(** ** JavaScript numerics *)

Lemma Int_part_small r : 0 <= r < 1 -> Int_part r = 0%Z.
Proof.
  intros H; unfold Int_part; rewrite <- (tech_up r 1); [reflexivity| |]; simpl IZR; lra.
Qed.

Lemma Int_part_1 : Int_part 1 = 1%Z.
Proof.
  unfold Int_part; rewrite <- (tech_up 1 2); [reflexivity| |]; simpl IZR; lra.
Qed.

(** [a % b] is [a] when [|a| < b]. *)
Lemma jsRem_small a b : 0 < b -> - b < a < b -> jsRem a b = a.
Proof.
  intros Hb Ha; unfold jsRem, Rtrunc.
  assert (E : a / b * b = a) by (field; lra).
  destruct (Rle_dec 0 (a / b)) as [H|H].
  - rewrite Int_part_small; [simpl; ring|split; [exact H|nra]].
  - rewrite Int_part_small; [simpl; ring|split; nra].
Qed.

Lemma jsRem_self b : 0 < b -> jsRem b b = 0.
Proof.
  intros Hb; unfold jsRem, Rtrunc; replace (b / b) with 1 by (field; lra).
  destruct (Rle_dec 0 1) as [_|H]; [|lra].
  rewrite Int_part_1; simpl; ring.
Qed.

Lemma atan2_up y : 0 < y -> atan2 y 0 = PI / 2.
Proof.
  intros Hy; unfold atan2.
  destruct (Rlt_dec 0 0); [lra|]; destruct (Rlt_dec 0 0); [lra|].
  destruct (Rlt_dec 0 y); [reflexivity|lra].
Qed.

Lemma atan2_right x : 0 < x -> atan2 0 x = 0.
Proof.
  intros Hx; unfold atan2; destruct (Rlt_dec 0 x); [|lra].
  unfold Rdiv; rewrite Rmult_0_l; exact atan_0.
Qed.

(** ** The rotate scenario: pivot (5,5), press at (5,10), frame at (10,5) *)

Lemma square_center : getCenter (getExtent square) = (5, 5).
Proof. rewrite square_extent; unfold getCenter; simpl; apply pair_eq; field. Qed.

Lemma squareRotatePressed_eq oa :
  squareRotatePressed oa =
  mkTransform (squareStore oa) [0%nat] [mkFeature square oa]
    (drawnHandles (squareStore oa) [0%nat]) MRotate false (5, 10) (5, 5)
    (mkRotationSelection (PI / 2) (5, 5)) (mkScalingSelection 0 0 0 (-1) (-1) origin origin)
    false [EMousedown; ETranslatestart; ETransformstart; EMouseup;
           EMousedown; ERotatestart; ETransformstart].
Proof.
  unfold squareRotatePressed; rewrite squareSelected_eq, handleDownEvent_handle; cbv zeta.
  cbn [hmode body squareRotateHandle store selections handleLayer events prevCoord
       scalingSelection headInverted isTransformed fgeom fst snd startEvents app map].
  change (fgeom (squareStore oa 0%nat)) with square; rewrite square_center; cbn [fst snd].
  replace (5 - 5) with 0 by ring; rewrite atan2_up by lra; reflexivity.
Qed.

Lemma squareRotatePressed_drag oa :
  handleDragEvent (squareRotatePressed oa) (10, 5) =
  mkTransform (setGeometries (rotatedGeometry (- (PI / 2))) [mkFeature square oa] [0%nat]
                 (squareStore oa))
    [0%nat] [rotatedAngle (- (PI / 2)) (mkFeature square oa)] [] MRotate true (5, 10) (5, 5)
    (mkRotationSelection (PI / 2) (5, 5)) (mkScalingSelection 0 0 0 (-1) (-1) origin origin)
    false [EMousedown; ETranslatestart; ETransformstart; EMouseup;
           EMousedown; ERotatestart; ETransformstart; ERotating; ETransforming].
Proof.
  rewrite squareRotatePressed_eq, handleDragEvent_rotate by reflexivity; cbv zeta.
  cbn [store selections prevSelections rotationSelection center rsAngle startCoord prevCoord
       scalingSelection headInverted events fst snd map app].
  replace (5 - 5) with 0 by ring; rewrite atan2_right by lra.
  replace (0 - PI / 2) with (- (PI / 2)) by ring; reflexivity.
Qed.

(** [-π/2 % 2π] and [(-π/2 - π/2) % 2π]. *)
Lemma jsRem_quarter_turns :
  jsRem (0 + - (PI / 2)) (2 * PI) = - (PI / 2) /\
  jsRem (jsRem (0 + - (PI / 2)) (2 * PI) + - (PI / 2)) (2 * PI) = - PI.
Proof.
  pose proof PI_RGT_0 as Hpi.
  assert (E : jsRem (0 + - (PI / 2)) (2 * PI) = - (PI / 2)).
  { rewrite jsRem_small; [ring|lra|split; lra]. }
  split; [exact E|]; rewrite E, jsRem_small; [field|lra|split; lra].
Qed.

Lemma squareRotatePressed_two_frames :
  prevSelections (dragFrames (squareRotatePressed (Some 0)) [(10, 5); (10, 5)]) =
  [mkFeature square (Some (- PI))].
Proof.
  change (dragFrames (squareRotatePressed (Some 0)) [(10, 5); (10, 5)]) with
    (handleDragEvent (handleDragEvent (squareRotatePressed (Some 0)) (10, 5)) (10, 5)).
  rewrite squareRotatePressed_drag, handleDragEvent_rotate by reflexivity; cbv zeta.
  cbn [prevSelections rotationSelection center rsAngle fst snd map].
  replace (5 - 5) with 0 by ring; rewrite atan2_right by lra.
  replace (0 - PI / 2) with (- (PI / 2)) by ring.
  unfold rotatedAngle; cbn [fangle fgeom].
  destruct jsRem_quarter_turns as [_ E]; rewrite E; reflexivity.
Qed.

(** The sign and range of JavaScript's remainder by a positive divisor. *)
Lemma jsRem_bounds a b :
  0 < b ->
  (0 <= a -> 0 <= jsRem a b < b) /\ (a < 0 -> - b < jsRem a b <= 0).
Proof.
  intros Hb; unfold jsRem, Rtrunc.
  assert (E : a = b * (a / b)) by (field; lra).
  split; intros Ha.
  - assert (Hq : 0 <= a / b) by (unfold Rdiv; apply Rmult_le_pos; [lra|left; apply Rinv_0_lt_compat; lra]).
    destruct (Rle_dec 0 (a / b)) as [_|H]; [|lra].
    destruct (base_Int_part (a / b)) as [H1 H2].
    set (q := a / b) in *; set (n := IZR (Int_part q)) in *.
    rewrite E; split; nra.
  - assert (Hq : a / b < 0).
    { unfold Rdiv; apply Rmult_neg_pos; [lra|apply Rinv_0_lt_compat; lra]. }
    destruct (Rle_dec 0 (a / b)) as [H|_]; [lra|].
    destruct (base_Int_part (- (a / b))) as [H1 H2].
    rewrite opp_IZR.
    set (q := a / b) in *; set (n := IZR (Int_part (- q))) in *.
    rewrite E; split; nra.
Qed.

(** * Translate gestures *)

(** C9: in translate mode the per-frame deltas add up: a gesture started
    by a pointer-down at [A] that hands over to translate mode, followed by
    drag frames at the positions [ps], leaves every selected feature equal
    to its pre-gesture geometry translated by [B - A], where [B] is the
    last position (the press point itself if there was no frame); the
    feature's ["angle"] property is kept. *)
Theorem translate_gesture_displacement s0 hit add A ps id :
  NoDup (selections s0) ->
  fst (handleDownEvent s0 hit add A) = true ->
  mode (snd (handleDownEvent s0 hit add A)) = MTranslate ->
  In id (selections (snd (handleDownEvent s0 hit add A))) ->
  let B := last ps A in
  store (dragFrames (snd (handleDownEvent s0 hit add A)) ps) id =
  mkFeature (geomTranslate (fst B - fst A) (snd B - snd A) (fgeom (store s0 id)))
    (fangle (store s0 id)).
Proof.
  intros Hnd Hh Hm Hid.
  destruct (handleDownEvent_facts s0 hit add A Hnd) as (Hst & Hnd1 & _ & _ & Hev).
  destruct (Hev Hh) as [_ Hpc]; specialize (Hpc Hm).
  destruct (translate_frames ps _ Hm Hnd1) as (_ & _ & _ & Hin & _).
  cbv zeta in Hin |- *; rewrite Hin by exact Hid; rewrite Hpc, Hst; reflexivity.
Qed.

(** The square, clicked on its body at (5,5) and dragged through (6,4)
    and (8,3): frame deltas (1,-1) and (2,-1), net displacement (3,-2). *)
Lemma translate_gesture_displacement_witness :
  NoDup (selections (initialTransform (squareStore None))) /\
  fst (handleDownEvent (initialTransform (squareStore None)) (Some (PBody 0)) false (5, 5)) = true /\
  mode (snd (handleDownEvent (initialTransform (squareStore None)) (Some (PBody 0)) false (5, 5)))
    = MTranslate /\
  In 0%nat (selections (snd (handleDownEvent (initialTransform (squareStore None))
                                              (Some (PBody 0)) false (5, 5)))) /\
  store (dragFrames (snd (handleDownEvent (initialTransform (squareStore None))
                                           (Some (PBody 0)) false (5, 5)))
           [(6, 4); (8, 3)]) 0%nat =
  mkFeature (geomTranslate (8 - 5) (3 - 5) square) None /\
  (6 - 5 = 1 /\ 4 - 5 = -1) /\ (8 - 6 = 2 /\ 3 - 4 = -1) /\ (8 - 5 = 3 /\ 3 - 5 = -2).
Proof.
  split; [constructor|]. split; [reflexivity|]. split; [reflexivity|].
  split; [left; reflexivity|].
  split; [|split_and; lra].
  exact (translate_gesture_displacement (initialTransform (squareStore None)) (Some (PBody 0))
           false (5, 5) [(6, 4); (8, 3)] 0 (NoDup_nil _) eq_refl eq_refl (or_introl eq_refl)).
Defined.

(** C10: a pointer-down with the additive modifier on a body feature [b]
    that is already selected removes [b] from the selection, still reports
    the hit, and starts a translate gesture: mode translate, notifications
    mousedown, translatestart, transformstart; the following drag frames
    translate exactly the features left in the selection and leave [b]
    untouched. *)
Theorem additive_deselect_still_translates s0 b A ps :
  NoDup (selections s0) -> In b (selections s0) ->
  let r := handleDownEvent s0 (Some (PBody b)) true A in
  let s1 := snd r in
  fst (selectFeature s0 (Some (PBody b)) true) = Some (PBody b) /\
  fst r = true /\ mode s1 = MTranslate /\
  events s1 = events s0 ++ [EMousedown; ETranslatestart; ETransformstart] /\
  (forall j, In j (selections s1) <-> In j (selections s0) /\ j <> b) /\
  store (dragFrames s1 ps) b = store s0 b /\
  (forall j, In j (selections s1) ->
     store (dragFrames s1 ps) j =
     mkFeature (geomTranslate (fst (last ps A) - fst A) (snd (last ps A) - snd A)
                  (fgeom (store s0 j))) (fangle (store s0 j))).
Proof.
  intros Hnd Hb; destruct (In_indexOf _ _ Hb) as [i Hi].
  destruct (remove_at_spec _ _ _ Hnd (indexOf_some _ _ _ Hi)) as (Hnd' & Hnotin & Hiff).
  set (sels' := firstn i (selections s0) ++ skipn (S i) (selections s0)) in *.
  assert (E : handleDownEvent s0 (Some (PBody b)) true A =
    (true, mkTransform (store s0) sels' (map (store s0) sels') (drawnHandles (store s0) sels')
             MTranslate (isTransformed s0) A A (rotationSelection s0) (scalingSelection s0)
             (headInverted s0)
             (((events s0 ++ [EMousedown]) ++ [ETranslatestart]) ++ [ETransformstart]))).
  { rewrite handleDownEvent_body; cbn [selectFeature snd]; rewrite Hi; reflexivity. }
  cbv zeta; rewrite E; cbn [fst snd mode events selections store prevCoord].
  destruct (translate_frames ps (mkTransform (store s0) sels' (map (store s0) sels')
             (drawnHandles (store s0) sels') MTranslate (isTransformed s0) A A
             (rotationSelection s0) (scalingSelection s0) (headInverted s0)
             (((events s0 ++ [EMousedown]) ++ [ETranslatestart]) ++ [ETransformstart]))
             eq_refl Hnd') as (_ & _ & _ & Hin & Hout).
  cbv zeta in Hin, Hout; cbn [selections store prevCoord] in Hin, Hout.
  split_and.
  - cbn [selectFeature fst]; reflexivity.
  - reflexivity.
  - reflexivity.
  - rewrite <- !app_assoc; reflexivity.
  - apply Hiff.
  - exact (Hout b Hnotin).
  - intros j Hj; exact (Hin j Hj).
Qed.

(** The square selected, then clicked again with the modifier and dragged
    to (6,6). *)
Lemma additive_deselect_still_translates_witness :
  NoDup (selections (squareSelected None)) /\ In 0%nat (selections (squareSelected None)) /\
  store (dragFrames (snd (handleDownEvent (squareSelected None) (Some (PBody 0)) true (5, 5)))
           [(6, 6)]) 0%nat = mkFeature square None /\
  selections (snd (handleDownEvent (squareSelected None) (Some (PBody 0)) true (5, 5))) = [].
Proof.
  assert (Hs : selections (squareSelected None) = [0%nat]) by reflexivity.
  assert (Hnd : NoDup (selections (squareSelected None)))
    by (rewrite Hs; repeat constructor; simpl; tauto).
  assert (Hin : In 0%nat (selections (squareSelected None))) by (rewrite Hs; left; reflexivity).
  split; [exact Hnd|]. split; [exact Hin|]. split; [|reflexivity].
  destruct (additive_deselect_still_translates (squareSelected None) 0 (5, 5) [(6, 6)] Hnd Hin)
    as (_ & _ & _ & _ & _ & Hb & _).
  exact Hb.
Defined.

(** * Notifications and the handle overlay *)

Lemma handleDragEvent_mode s p :
  mode (handleDragEvent s p) = mode s /\ isTransformed (handleDragEvent s p) = true /\
  handleLayer (handleDragEvent s p) = [].
Proof. destruct s as [st sels prev hl m it sc pc rs ss hi ev]; destruct m; split_and; reflexivity. Qed.

Lemma handleDragEvent_selections s p : selections (handleDragEvent s p) = selections s.
Proof. destruct s as [st sels prev hl m it sc pc rs ss hi ev]; destruct m; reflexivity. Qed.

Lemma dragFrames_mode ps s :
  mode (dragFrames s ps) = mode s /\
  isTransformed (dragFrames s ps) = match ps with [] => isTransformed s | _ :: _ => true end.
Proof.
  revert s; induction ps as [|p ps IH]; intros s; [split; reflexivity|].
  change (dragFrames s (p :: ps)) with (dragFrames (handleDragEvent s p) ps).
  destruct (IH (handleDragEvent s p)) as [H1 H2]; destruct (handleDragEvent_mode s p) as (H3 & H4 & _).
  rewrite H1, H3; split; [reflexivity|]; rewrite H2; destruct ps; [exact H4|reflexivity].
Qed.

(** C6: for a gesture that starts (the pointer-down hits a body or a
    handle) on an interaction with no transform pending, the pointer-up
    adds the mode's end notification and transformend exactly when at
    least one drag frame ran; with no drag frame the gesture's
    notifications are mousedown, the mode's start notification,
    transformstart and mouseup. *)
Theorem end_notifications_iff_dragged s0 hit add c ps :
  NoDup (selections s0) -> isTransformed s0 = false ->
  fst (handleDownEvent s0 hit add c) = true ->
  let s1 := snd (handleDownEvent s0 hit add c) in
  let s2 := dragFrames s1 ps in
  events (handleUpEvent s2) =
  events s2 ++ EMouseup ::
    match ps with [] => [] | _ :: _ => endEvents (mode s1) ++ [ETransformend] end /\
  (ps = [] ->
   events (handleUpEvent s2) =
   events s0 ++ EMousedown :: startEvents (mode s1) ++ [ETransformstart; EMouseup]).
Proof.
  intros Hnd Hit Hh.
  destruct (handleDownEvent_facts s0 hit add c Hnd) as (_ & _ & _ & Hit1 & Hev).
  destruct (Hev Hh) as [Hev1 _].
  destruct (dragFrames_mode ps (snd (handleDownEvent s0 hit add c))) as [Hm Hit2].
  cbv zeta; rewrite handleUpEvent_eq; cbv zeta; cbn [events]; rewrite Hit2, Hm.
  destruct ps as [|p ps].
  - change (dragFrames (snd (handleDownEvent s0 hit add c)) []) with
      (snd (handleDownEvent s0 hit add c)).
    rewrite Hit1, Hit; split; [reflexivity|].
    intros _; rewrite Hev1, <- !app_assoc; reflexivity.
  - split; [rewrite <- !app_assoc; reflexivity|discriminate].
Qed.

(** The square selected by a click, clicked on its body again. *)
Lemma end_notifications_iff_dragged_witness :
  NoDup (selections (squareSelected None)) /\ isTransformed (squareSelected None) = false /\
  fst (handleDownEvent (squareSelected None) (Some (PBody 0)) false (5, 5)) = true /\
  events (handleUpEvent (snd (handleDownEvent (squareSelected None) (Some (PBody 0)) false (5, 5))))
  = [EMousedown; ETranslatestart; ETransformstart; EMouseup;
     EMousedown; ETranslatestart; ETransformstart; EMouseup].
Proof.
  assert (Hnd : NoDup (selections (squareSelected None)))
    by (change (NoDup [0%nat]); repeat constructor; simpl; tauto).
  split; [exact Hnd|]. split; [reflexivity|]. split; [reflexivity|].
  destruct (end_notifications_iff_dragged (squareSelected None) (Some (PBody 0)) false (5, 5) []
              Hnd eq_refl eq_refl) as [_ H].
  exact (H eq_refl).
Defined.

(** C6 fails as stated: a click (press and release, no drag frame) on the
    square's body emits the translate start notification and transformstart
    besides mousedown and mouseup. *)
Lemma press_release_notifications_counterexample :
  events (initialTransform (squareStore None)) = [] /\
  events (squareSelected None) = [EMousedown; ETranslatestart; ETransformstart; EMouseup] /\
  events (squareSelected None) <> [EMousedown; EMouseup].
Proof.
  assert (E : events (squareSelected None) =
              [EMousedown; ETranslatestart; ETransformstart; EMouseup]) by reflexivity.
  split; [reflexivity|]. split; [exact E|]. rewrite E; discriminate.
Qed.

(** C7: the handle layer is refilled with the handles of the selection
    whenever the selection changes (in [selectFeature], and in
    [handleDownEvent], which also clears the selection on a press that
    hits nothing; no other handler changes it) and at every pointer-up,
    while a drag frame clears it and does not refill it. *)
Theorem overlay_redraw_points s p hit add c :
  handleLayer (handleDragEvent s p) = [] /\
  handleLayer (handleUpEvent s) =
  drawnHandles (store (handleUpEvent s)) (selections (handleUpEvent s)) /\
  (selections (snd (selectFeature s hit add)) <> selections s ->
   handleLayer (snd (selectFeature s hit add)) =
   drawnHandles (store (snd (selectFeature s hit add))) (selections (snd (selectFeature s hit add)))) /\
  (selections (snd (handleDownEvent s hit add c)) <> selections s ->
   handleLayer (snd (handleDownEvent s hit add c)) =
   drawnHandles (store (snd (handleDownEvent s hit add c)))
     (selections (snd (handleDownEvent s hit add c)))).
Proof.
  assert (Hsel : forall hit, selections (snd (selectFeature s hit add)) <> selections s ->
   handleLayer (snd (selectFeature s hit add)) =
   drawnHandles (store (snd (selectFeature s hit add))) (selections (snd (selectFeature s hit add)))).
  { intros hit'; destruct hit' as [[id|hd]|]; cbn [selectFeature snd];
      [destruct (indexOf (selections s) id), add| |]; intros H;
      try (exfalso; apply H; reflexivity); reflexivity. }
  split; [apply handleDragEvent_mode|].
  split; [rewrite handleUpEvent_eq; reflexivity|].
  split; [apply Hsel|].
  destruct hit as [[id|hd]|].
  - rewrite handleDownEvent_body; cbv zeta; cbn [snd handleLayer store selections].
    apply Hsel.
  - rewrite handleDownEvent_handle; cbv zeta; cbn [snd selections]; intros H; exfalso; apply H;
      reflexivity.
  - unfold handleDownEvent; cbn [selectFeature]; unfold selClear.
    destruct (selections s) eqn:Es; intros H; cbn in H |- *;
      [exfalso; apply H; rewrite Es; reflexivity|reflexivity].
Qed.

(** The first click on the square changes the selection; a later press
    that hits nothing clears it. *)
Lemma overlay_redraw_points_witness :
  selections (snd (selectFeature (initialTransform (squareStore None)) (Some (PBody 0)) false))
    <> selections (initialTransform (squareStore None)) /\
  handleLayer (snd (selectFeature (initialTransform (squareStore None)) (Some (PBody 0)) false)) =
  drawnHandles (squareStore None) [0%nat] /\
  selections (snd (handleDownEvent (squareSelected None) None false (20, 20)))
    <> selections (squareSelected None) /\
  handleLayer (snd (handleDownEvent (squareSelected None) None false (20, 20))) =
  drawnHandles (squareStore None) [].
Proof.
  assert (Hne : selections (snd (selectFeature (initialTransform (squareStore None))
                                   (Some (PBody 0)) false))
                <> selections (initialTransform (squareStore None)))
    by (change ([0%nat] <> []); discriminate).
  assert (Hne' : selections (snd (handleDownEvent (squareSelected None) None false (20, 20)))
                 <> selections (squareSelected None))
    by (change (@nil nat <> [0%nat]); discriminate).
  split; [exact Hne|].
  destruct (overlay_redraw_points (initialTransform (squareStore None)) (0, 0) (Some (PBody 0)) false
              (5, 5)) as (_ & _ & H & _).
  split; [exact (H Hne)|]. split; [exact Hne'|].
  destruct (overlay_redraw_points (squareSelected None) (0, 0) None false (20, 20))
    as (_ & _ & _ & H').
  exact (H' Hne').
Defined.

(** C7 fails as stated: after a drag frame of a translate gesture on the
    selected square the handle layer is empty, while the handles of the
    selection are not. *)
Lemma drag_frame_overlay_counterexample :
  let s1 := snd (handleDownEvent (squareSelected None) (Some (PBody 0)) false (5, 5)) in
  selections (handleDragEvent s1 (6, 6)) = [0%nat] /\
  handleLayer (handleDragEvent s1 (6, 6)) = [] /\
  drawnHandles (store (handleDragEvent s1 (6, 6))) (selections (handleDragEvent s1 (6, 6))) <> [].
Proof.
  cbv zeta.
  assert (Hs : selections (handleDragEvent (snd (handleDownEvent (squareSelected None)
                 (Some (PBody 0)) false (5, 5))) (6, 6)) = [0%nat]) by reflexivity.
  split; [exact Hs|]. split; [apply handleDragEvent_mode|].
  rewrite Hs; unfold drawnHandles; intros H; symmetry in H; exact (app_cons_not_nil _ _ _ H).
Qed.

(** * Rotate gestures *)

(** Of the drag frames and the pointer-up, only a rotate frame writes to
    the snapshot. *)
Lemma snapshot_kept_by_other_steps s p :
  (mode s <> MRotate -> prevSelections (handleDragEvent s p) = prevSelections s) /\
  prevSelections (handleUpEvent s) = prevSelections s.
Proof.
  split; [|rewrite handleUpEvent_eq; reflexivity].
  destruct s as [st sels prev hl m it sc pc rs ss hi ev]; destruct m; intros H;
    try reflexivity; exfalso; apply H; reflexivity.
Qed.

(** C1 (as the code has it): on a rotate frame at [p], the [i]-th selected
    feature gets the [i]-th snapshot geometry rotated by
    [da = atan2(p - pivot) - initialAngle] about the snapshot's own extent
    center.  For a snapshot entry with angle [a] the frame computes
    [(a + da) % 2π] with JavaScript's remainder and writes it as the angle
    of that snapshot entry; the value lies in (-2π, 2π) and has the sign
    of [a + da] (or is 0).  In the scenario (pivot (5,5), press at (5,10),
    frame at (10,5)) the initial angle is π/2, [da] is -π/2 and the value
    computed for angle 0 is -π/2. *)
Theorem rotate_frame_geometry s p i f id :
  mode s = MRotate -> NoDup (selections s) ->
  nth_error (prevSelections s) i = Some f -> nth_error (selections s) i = Some id ->
  let rs := rotationSelection s in
  let da := atan2 (snd p - snd (center rs)) (fst p - fst (center rs)) - rsAngle rs in
  fgeom (store (handleDragEvent s p) id) =
  geomRotate da (getCenter (getExtent (fgeom f))) (fgeom f) /\
  (forall a, fangle f = Some a ->
   nth_error (prevSelections (handleDragEvent s p)) i =
     Some (mkFeature (fgeom f) (Some (jsRem (a + da) (2 * PI)))) /\
   - (2 * PI) < jsRem (a + da) (2 * PI) < 2 * PI /\
   (0 <= a + da -> 0 <= jsRem (a + da) (2 * PI)) /\
   (a + da < 0 -> jsRem (a + da) (2 * PI) <= 0)) /\
  (let rs0 := rotationSelection (squareRotatePressed (Some 0)) in
   center rs0 = (5, 5) /\ rsAngle rs0 = PI / 2 /\
   atan2 (5 - snd (center rs0)) (10 - fst (center rs0)) - rsAngle rs0 = - (PI / 2) /\
   jsRem (0 + - (PI / 2)) (2 * PI) = - (PI / 2)).
Proof.
  intros Hm Hnd Hf Hid; cbv zeta; split_and.
  - rewrite handleDragEvent_rotate by exact Hm; cbv zeta; cbn [store].
    rewrite (setGeometries_at _ _ _ _ i id f Hnd Hid Hf); reflexivity.
  - intros a Ha.
    set (da := atan2 (snd p - snd (center (rotationSelection s)))
                 (fst p - fst (center (rotationSelection s))) - rsAngle (rotationSelection s)).
    pose proof PI_RGT_0 as Hpi.
    destruct (jsRem_bounds (a + da) (2 * PI)) as [Bp Bn]; [lra|].
    split_and.
    + rewrite handleDragEvent_rotate by exact Hm; cbv zeta; cbn [prevSelections].
      rewrite nth_error_map, Hf; cbn [option_map]; unfold rotatedAngle; rewrite Ha; reflexivity.
    + destruct (Rle_dec 0 (a + da)) as [H|H]; [specialize (Bp H)|specialize (Bn ltac:(lra))]; lra.
    + destruct (Rle_dec 0 (a + da)) as [H|H]; [specialize (Bp H)|specialize (Bn ltac:(lra))]; lra.
    + intros H; specialize (Bp H); lra.
    + intros H; specialize (Bn H); lra.
  - rewrite squareRotatePressed_eq; reflexivity.
  - rewrite squareRotatePressed_eq; reflexivity.
  - rewrite squareRotatePressed_eq; cbn [rotationSelection center rsAngle fst snd].
    replace (5 - 5) with 0 by ring; rewrite atan2_right by lra; ring.
  - exact (proj1 jsRem_quarter_turns).
Qed.

(** The scenario's square, angle 0, one frame at (10,5). *)
Lemma rotate_frame_geometry_witness :
  let s := squareRotatePressed (Some 0) in
  mode s = MRotate /\ NoDup (selections s) /\
  nth_error (prevSelections s) 0 = Some (mkFeature square (Some 0)) /\
  nth_error (selections s) 0 = Some 0%nat /\
  fgeom (store (handleDragEvent s (10, 5)) 0%nat) =
  geomRotate (atan2 (5 - snd (center (rotationSelection s))) (10 - fst (center (rotationSelection s)))
              - rsAngle (rotationSelection s))
    (getCenter (getExtent square)) square.
Proof.
  cbv zeta.
  assert (H1 : mode (squareRotatePressed (Some 0)) = MRotate) by reflexivity.
  assert (H2 : NoDup (selections (squareRotatePressed (Some 0))))
    by (change (NoDup [0%nat]); repeat constructor; simpl; tauto).
  assert (H3 : nth_error (prevSelections (squareRotatePressed (Some 0))) 0 =
               Some (mkFeature square (Some 0))) by reflexivity.
  assert (H4 : nth_error (selections (squareRotatePressed (Some 0))) 0 = Some 0%nat)
    by reflexivity.
  split; [exact H1|]. split; [exact H2|]. split; [exact H3|]. split; [exact H4|].
  exact (proj1 (rotate_frame_geometry (squareRotatePressed (Some 0)) (10, 5) 0 _ 0 H1 H2 H3 H4)).
Defined.

(** C1 fails as stated: in the scenario, with the square's angle 0, the
    value computed is -π/2, not 3π/2, and the live square's angle after
    the frame is still 0. *)
Lemma rotate_scenario_angle_counterexample :
  fangle (store (handleDragEvent (squareRotatePressed (Some 0)) (10, 5)) 0%nat) = Some 0 /\
  jsRem (0 + - (PI / 2)) (2 * PI) = - (PI / 2) /\
  - (PI / 2) <> 3 * PI / 2 /\ Some 0 <> Some (3 * PI / 2).
Proof.
  pose proof PI_RGT_0 as Hpi.
  split; [rewrite squareRotatePressed_drag; cbn [store]; rewrite setGeometries_angle; reflexivity|].
  split; [exact (proj1 jsRem_quarter_turns)|].
  split; [lra|intros H; injection H; lra].
Qed.

(** C3 (the snapshot is written to): in the rotate scenario the snapshot
    entry of the square, angle 0 at the pointer-down, has angle -π/2 after
    the first frame and -π after a second frame at the same position. *)
Theorem rotate_frames_write_snapshot :
  prevSelections (squareRotatePressed (Some 0)) = [mkFeature square (Some 0)] /\
  prevSelections (handleDragEvent (squareRotatePressed (Some 0)) (10, 5)) =
  [mkFeature square (Some (- (PI / 2)))] /\
  prevSelections (dragFrames (squareRotatePressed (Some 0)) [(10, 5); (10, 5)]) =
  [mkFeature square (Some (- PI))] /\
  Some 0 <> Some (- (PI / 2)).
Proof.
  pose proof PI_RGT_0 as Hpi.
  split; [rewrite squareRotatePressed_eq; reflexivity|].
  split; [|split; [exact squareRotatePressed_two_frames|intros H; injection H; lra]].
  rewrite squareRotatePressed_drag; cbn [prevSelections]; unfold rotatedAngle; cbn [fangle fgeom].
  rewrite (proj1 jsRem_quarter_turns); reflexivity.
Qed.

(** * Scale gestures on the square *)

(** C2 (as the code has it): of the handles drawn for the selected square
    (angle 0), the scale handle at (10,10) is the one of ring index 6 (top
    right; index 4 is the bottom-right corner (10,0)).  Pressing it and
    dragging to (20,20) gives scale factors (2,2) about the opposite corner
    (0,0), ring index 2, and the square becomes
    (0,0), (20,0), (20,20), (0,20). *)
Theorem square_corner_handle_scale oa :
  featureAngle (mkFeature square oa) = 0 ->
  let hl := handleLayer (squareSelected oa) in
  In (squareScaleHandle (10, 10) 6) hl /\
  (forall hd, In hd hl -> hmode hd = MScale -> hgeom hd = Point (10, 10) -> index hd = 6%Z) /\
  In (squareScaleHandle (10, 0) 4) hl /\
  scalingSelection (squareScalePressed oa) = mkScalingSelection 0 10 10 6 2 (0, 0) (10, 10) /\
  scaleFactors (scalingSelection (squareScalePressed oa)) (20, 20) = (2, 2) /\
  fgeom (store (handleDragEvent (squareScalePressed oa) (20, 20)) 0%nat) =
  mkGeometry GPolygon [(0, 0); (20, 0); (20, 20); (0, 20); (0, 0)].
Proof.
  intros Hoa; cbv zeta; rewrite squareSelected_eq; cbn [handleLayer].
  rewrite (square_handles oa Hoa); split_and.
  - do 7 right; left; reflexivity.
  - intros hd Hin Hm Hg; unfold squareHandles in Hin.
    repeat (destruct Hin as [<-|Hin]; [|]); try contradiction;
      unfold squareScaleHandle, squareRotateHandle, Point in *;
      cbn [hmode hgeom index] in *;
      first [reflexivity | discriminate | injection Hg; intros; lra].
  - do 5 right; left; reflexivity.
  - rewrite (squareScalePressed_eq oa Hoa); reflexivity.
  - rewrite (squareScalePressed_eq oa Hoa); cbn [scalingSelection].
    rewrite scaleFactors_square; cbn [fst snd]; apply pair_eq; field.
  - rewrite (squareScalePressed_drag oa (20, 20) Hoa); cbn [store].
    rewrite setGeometry_same; reflexivity.
Qed.

Lemma square_corner_handle_scale_witness :
  featureAngle (mkFeature square (Some 0)) = 0 /\
  fgeom (store (handleDragEvent (squareScalePressed (Some 0)) (20, 20)) 0%nat) =
  mkGeometry GPolygon [(0, 0); (20, 0); (20, 20); (0, 20); (0, 0)].
Proof.
  split; [reflexivity|].
  exact (proj2 (proj2 (proj2 (proj2 (proj2 (square_corner_handle_scale (Some 0) eq_refl)))))).
Defined.

(** C2 fails as stated: the handle of ring index 4 drawn for the square is
    at (10,0), not at (10,10). *)
Lemma ring_index4_counterexample :
  nth 5 (handleLayer (squareSelected (Some 0))) squareRotateHandle = squareScaleHandle (10, 0) 4 /\
  Point (10, 0) <> Point (10, 10).
Proof.
  split.
  - rewrite squareSelected_eq; cbn [handleLayer]; rewrite square_handles by reflexivity;
      reflexivity.
  - intros H; injection H; lra.
Qed.

(** * Releasing a scale gesture *)

Lemma flipFeature_same st id : flipFeature st id id = flipped (st id).
Proof. unfold flipFeature, flipped; destruct (fangle (st id)); [rewrite Nat.eqb_refl|]; reflexivity. Qed.

Lemma flipFeature_other st id j : j <> id -> flipFeature st id j = st j.
Proof.
  intros H; unfold flipFeature; destruct (fangle (st id)); [|reflexivity].
  apply Nat.eqb_neq in H; rewrite H; reflexivity.
Qed.

Lemma flip_fold_notin sels st j : ~ In j sels -> fold_left flipFeature sels st j = st j.
Proof.
  revert st; induction sels as [|id sels IH]; intros st Hj; [reflexivity|].
  simpl in Hj |- *; rewrite IH by tauto; apply flipFeature_other; intros ->; tauto.
Qed.

Lemma flip_fold_in sels st j :
  NoDup sels -> In j sels -> fold_left flipFeature sels st j = flipped (st j).
Proof.
  revert st; induction sels as [|id sels IH]; intros st Hnd Hj; [destruct Hj|].
  apply NoDup_cons_iff in Hnd as [Hnin Hnd]; simpl.
  destruct (Nat.eq_dec j id) as [->|Hne].
  - rewrite flip_fold_notin by exact Hnin; apply flipFeature_same.
  - destruct Hj as [->|Hj]; [congruence|].
    rewrite IH by assumption; rewrite flipFeature_other by exact Hne; reflexivity.
Qed.

Lemma jsRem_half_turn : jsRem (0 + PI) (2 * PI) = PI.
Proof. pose proof PI_RGT_0; rewrite jsRem_small; [ring|lra|split; lra]. Qed.

(** C4 (as the code has it): after a scale frame whose [scaleY] is
    negative, the pointer-up applies the correction [flipped] to every
    selected feature: a feature with an ["angle"] property [a] is rotated
    by π about its own extent's center and gets the angle [(a + π) % 2π];
    a feature without one is left as the frame made it.  A feature whose
    angle was 0 ends with angle π and its scaled geometry turned by π
    about its center. *)
Theorem scale_release_flip s p id :
  mode s = MScale -> snd (scaleFactors (scalingSelection s) p) < 0 ->
  NoDup (selections s) -> In id (selections s) ->
  let s1 := handleDragEvent s p in
  headInverted s1 = true /\
  store (handleUpEvent s1) id = flipped (store s1 id) /\
  fangle (store s1 id) = fangle (store s id) /\
  (fangle (store s id) = None -> store (handleUpEvent s1) id = store s1 id) /\
  (fangle (store s id) = Some 0 ->
   fangle (store (handleUpEvent s1) id) = Some PI /\
   fgeom (store (handleUpEvent s1) id) =
   geomRotate PI (getCenter (getExtent (fgeom (store s1 id)))) (fgeom (store s1 id))).
Proof.
  intros Hm Hneg Hnd Hid; cbv zeta.
  assert (E1 : headInverted (handleDragEvent s p) = true).
  { rewrite handleDragEvent_scale by exact Hm; cbv zeta; cbn [headInverted].
    destruct Rlt_dec; [reflexivity|lra]. }
  assert (E2 : store (handleUpEvent (handleDragEvent s p)) id = flipped (store (handleDragEvent s p) id)).
  { rewrite handleUpEvent_eq; cbv zeta; cbn [store].
    destruct (handleDragEvent_mode s p) as (Hm' & _).
    rewrite E1, Hm', Hm, handleDragEvent_selections; cbn [isScale andb].
    apply flip_fold_in; assumption. }
  assert (E3 : fangle (store (handleDragEvent s p) id) = fangle (store s id)).
  { rewrite handleDragEvent_scale by exact Hm; cbv zeta; cbn [store]; apply setGeometries_angle. }
  split_and; [exact E1|exact E2|exact E3| |].
  - intros H; rewrite E2; unfold flipped; rewrite E3, H; reflexivity.
  - intros H; rewrite E2; unfold flipped; rewrite E3, H; cbn [fangle fgeom].
    rewrite jsRem_half_turn; split; reflexivity.
Qed.

(** The square, angle 0, corner 6 dragged to (20,-20) and released. *)
Lemma scale_release_flip_witness :
  mode (squareScalePressed (Some 0)) = MScale /\
  snd (scaleFactors (scalingSelection (squareScalePressed (Some 0))) (20, -20)) < 0 /\
  NoDup (selections (squareScalePressed (Some 0))) /\
  In 0%nat (selections (squareScalePressed (Some 0))) /\
  fangle (store (handleUpEvent (handleDragEvent (squareScalePressed (Some 0)) (20, -20))) 0%nat)
  = Some PI.
Proof.
  assert (H1 : mode (squareScalePressed (Some 0)) = MScale) by reflexivity.
  assert (H2 : snd (scaleFactors (scalingSelection (squareScalePressed (Some 0))) (20, -20)) < 0).
  { rewrite squareScalePressed_eq by reflexivity; cbn [scalingSelection].
    rewrite scaleFactors_square; cbn [snd]; lra. }
  assert (H3 : NoDup (selections (squareScalePressed (Some 0))))
    by (change (NoDup [0%nat]); repeat constructor; simpl; tauto).
  assert (H4 : In 0%nat (selections (squareScalePressed (Some 0)))) by (left; reflexivity).
  split; [exact H1|]. split; [exact H2|]. split; [exact H3|]. split; [exact H4|].
  destruct (scale_release_flip (squareScalePressed (Some 0)) (20, -20) 0 H1 H2 H3 H4)
    as (_ & _ & _ & _ & H).
  exact (proj1 (H eq_refl)).
Defined.

Lemma squareScaledTo_extent : getExtent (squareScaledTo (20, -20)) = mkExtent 0 (-20) 20 0.
Proof.
  unfold getExtent, squareScaledTo; simpl; unfold extendCoordinate; simpl; rminmax; reflexivity.
Qed.

(** C4 fails as stated: the square without an ["angle"] property, corner 6
    dragged to (20,-20) ([scaleY = -2]) and released, keeps the scaled
    geometry; it is not turned by π about its center. *)
Lemma flip_needs_angle_counterexample :
  let s1 := handleDragEvent (squareScalePressed None) (20, -20) in
  mode s1 = MScale /\ headInverted s1 = true /\
  store (handleUpEvent s1) 0%nat = mkFeature (squareScaledTo (20, -20)) None /\
  squareScaledTo (20, -20) <>
  geomRotate PI (getCenter (getExtent (squareScaledTo (20, -20)))) (squareScaledTo (20, -20)).
Proof.
  cbv zeta; rewrite (squareScalePressed_drag None (20, -20) eq_refl).
  destruct (Rlt_dec (snd (20, -20) / 10) 0) as [_|H]; [|cbn [snd] in H; lra].
  split; [reflexivity|]. split; [reflexivity|]. split.
  - rewrite handleUpEvent_eq; reflexivity.
  - rewrite squareScaledTo_extent; intros H.
    apply (f_equal (fun g => fst (nth 0 (gcoords g) origin))) in H.
    unfold squareScaledTo, getCenter, geomRotate, rotateCoordinate in H;
      cbn [gcoords map nth fst snd eMinX eMaxX eMinY eMaxY] in H.
    rewrite cos_PI, sin_PI in H; lra.
Qed.

(** The square, angle 0, after a scale gesture that inverted it: corner 6
    dragged to (20,-20), then released. *)
Lemma squareFlipped_eq :
  handleUpEvent (handleDragEvent (squareScalePressed (Some 0)) (20, -20)) =
  let st := fold_left flipFeature [0%nat]
              (setGeometry (squareStore (Some 0)) 0 (squareScaledTo (20, -20))) in
  mkTransform st [0%nat] [mkFeature square (Some 0)] (drawnHandles st [0%nat]) MNone false
    (10, 10) (5, 5) (mkRotationSelection 0 origin) (mkScalingSelection 0 10 10 6 2 (0, 0) (10, 10))
    true [EMousedown; ETranslatestart; ETransformstart; EMouseup;
          EMousedown; EScalestart; ETransformstart; EScaling; ETransforming;
          EMouseup; EScaleend; ETransformend].
Proof.
  rewrite (squareScalePressed_drag (Some 0) (20, -20) eq_refl).
  destruct (Rlt_dec (snd (20, -20) / 10) 0) as [_|H]; [|cbn [snd] in H; lra].
  rewrite handleUpEvent_eq; reflexivity.
Qed.

(** C5 (the flag [headInverted] is not reset): after the inverting scale
    gesture above the interaction is idle but [headInverted] is still set;
    a press on a scale handle of the square (the first one drawn, index 0)
    followed at once by a release then turns the square again: its angle
    goes from π to 0. *)
Theorem inverted_flag_outlives_gesture :
  let s1 := handleUpEvent (handleDragEvent (squareScalePressed (Some 0)) (20, -20)) in
  let hd := nth 1 (handleLayer s1) squareRotateHandle in
  let s2 := handleUpEvent (snd (handleDownEvent s1 (Some (PHandle hd)) false
                                  (nth 0 (gcoords (hgeom hd)) origin))) in
  mode s1 = MNone /\ headInverted s1 = true /\ hmode hd = MScale /\ body hd = 0%nat /\
  fangle (store s1 0%nat) = Some PI /\ fangle (store s2 0%nat) = Some 0 /\
  headInverted s2 = true /\ Some PI <> Some 0.
Proof.
  pose proof PI_RGT_0 as Hpi.
  cbv zeta; rewrite squareFlipped_eq; cbv zeta.
  set (st := fold_left flipFeature [0%nat]
               (setGeometry (squareStore (Some 0)) 0 (squareScaledTo (20, -20)))).
  cbn [mode headInverted handleLayer store].
  assert (Hh : hmode (nth 1 (drawnHandles st [0%nat]) squareRotateHandle) = MScale)
    by reflexivity.
  assert (Hb : body (nth 1 (drawnHandles st [0%nat]) squareRotateHandle) = 0%nat)
    by reflexivity.
  assert (Hst : fangle (st 0%nat) = Some PI).
  { unfold st; cbn [fold_left]; rewrite flipFeature_same, setGeometry_same.
    change (fangle (squareStore (Some 0) 0%nat)) with (Some 0).
    unfold flipped; cbn [fangle]; rewrite jsRem_half_turn; reflexivity. }
  rewrite handleDownEvent_handle; cbv zeta; rewrite handleUpEvent_eq; cbv zeta.
  cbn [fst snd mode headInverted store selections]; rewrite Hh; cbn [isScale andb fold_left].
  split_and; try reflexivity; try assumption.
  - rewrite flipFeature_same; unfold flipped at 1; rewrite Hst; cbn [fangle].
    replace (PI + PI) with (2 * PI) by ring; rewrite jsRem_self by lra; reflexivity.
  - intros H; injection H; lra.
Qed.

(** * The scale anchor *)

Lemma Rmin_affine t k x y : 0 <= k -> Rmin (t + k * x) (t + k * y) = t + k * Rmin x y.
Proof. intros Hk; unfold Rmin; destruct (Rle_dec x y), (Rle_dec (t + k * x) (t + k * y)); nra. Qed.

Lemma Rmax_affine t k x y : 0 <= k -> Rmax (t + k * x) (t + k * y) = t + k * Rmax x y.
Proof. intros Hk; unfold Rmax; destruct (Rle_dec x y), (Rle_dec (t + k * x) (t + k * y)); nra. Qed.

Section Affine.
(** A map that scales each axis by a nonnegative factor and translates. *)
Variables (f : Coordinate -> Coordinate) (tx kx ty ky : R).
Hypotheses (Hkx : 0 <= kx) (Hky : 0 <= ky)
           (Hf : forall p, f p = (tx + kx * fst p, ty + ky * snd p)).

Lemma fold_extend_affine l e :
  fold_left extendCoordinate (map f l)
    (mkExtent (tx + kx * eMinX e) (ty + ky * eMinY e) (tx + kx * eMaxX e) (ty + ky * eMaxY e)) =
  let e' := fold_left extendCoordinate l e in
  mkExtent (tx + kx * eMinX e') (ty + ky * eMinY e') (tx + kx * eMaxX e') (ty + ky * eMaxY e').
Proof.
  revert e; induction l as [|p l IH]; intros e; [reflexivity|].
  cbn [map fold_left]; rewrite <- IH; f_equal.
  unfold extendCoordinate; rewrite Hf; cbn [eMinX eMinY eMaxX eMaxY fst snd].
  rewrite !Rmin_affine, !Rmax_affine by assumption; reflexivity.
Qed.

Lemma extent_affine l :
  l <> [] ->
  boundingExtent (map f l) =
  mkExtent (tx + kx * eMinX (boundingExtent l)) (ty + ky * eMinY (boundingExtent l))
           (tx + kx * eMaxX (boundingExtent l)) (ty + ky * eMaxY (boundingExtent l)).
Proof.
  destruct l as [|p l]; intros Hl; [contradiction|].
  cbn [map boundingExtent]; rewrite Hf; cbn [fst snd].
  exact (fold_extend_affine l (mkExtent (fst p) (snd p) (fst p) (snd p))).
Qed.

Lemma rearrange_affine e :
  rearrangeCoords (gcoords (fromExtent
    (mkExtent (tx + kx * eMinX e) (ty + ky * eMinY e) (tx + kx * eMaxX e) (ty + ky * eMaxY e)))) =
  map f (rearrangeCoords (gcoords (fromExtent e))).
Proof.
  destruct e as [x0 y0 x1 y1]; unfold rearrangeCoords, fromExtent.
  cbn [gcoords nth fst snd map eMinX eMinY eMaxX eMaxY]; rewrite !Hf; cbn [fst snd].
  rewrite !Rmin_affine, !Rmax_affine by assumption; reflexivity.
Qed.

Lemma affine_mid p q :
  f ((fst p + fst q) / 2, (snd p + snd q) / 2) =
  ((fst (f p) + fst (f q)) / 2, (snd (f p) + snd (f q)) / 2).
Proof. rewrite !Hf; cbn [fst snd]; apply pair_eq; field. Qed.

End Affine.

(** [calcScaleHandleCoord] commutes with a map that keeps midpoints. *)
Lemma calcScaleHandleCoord_map (g : Coordinate -> Coordinate) l i :
  (forall p q, g ((fst p + fst q) / 2, (snd p + snd q) / 2) =
               ((fst (g p) + fst (g q)) / 2, (snd (g p) + snd (g q)) / 2)) ->
  (4 <= length l)%nat -> (0 <= i <= 7)%Z ->
  calcScaleHandleCoord (map g l) i = g (calcScaleHandleCoord l i).
Proof.
  intros Hg Hl Hi; destruct l as [|a [|b [|c [|d l]]]]; cbn [length] in Hl; try lia.
  assert (i = 0 \/ i = 1 \/ i = 2 \/ i = 3 \/ i = 4 \/ i = 5 \/ i = 6 \/ i = 7)%Z as Hc by lia.
  unfold calcScaleHandleCoord; cbn [map nth].
  destruct Hc as [->|[->|[->|[->|[->|[->|[->| ->]]]]]]]; try reflexivity;
    rewrite !center_pair; symmetry; apply Hg.
Qed.

Lemma rotate_mid a c p q :
  rotateCoordinate a c ((fst p + fst q) / 2, (snd p + snd q) / 2) =
  ((fst (rotateCoordinate a c p) + fst (rotateCoordinate a c q)) / 2,
   (snd (rotateCoordinate a c p) + snd (rotateCoordinate a c q)) / 2).
Proof. unfold rotateCoordinate; cbn [fst snd]; apply pair_eq; field. Qed.

Lemma rotate_inv a c q : rotateCoordinate (- a) c (rotateCoordinate a c q) = q.
Proof.
  destruct c as [cx cy], q as [x y]; unfold rotateCoordinate; cbn [fst snd].
  rewrite cos_neg, sin_neg; pose proof (sin2_cos2 a) as H; unfold Rsqr in H.
  apply pair_eq; nsatz.
Qed.

Lemma rotate_anchor a c : rotateCoordinate a c c = c.
Proof. destruct c; unfold rotateCoordinate; cbn [fst snd]; apply pair_eq; ring. Qed.

Lemma scale_anchor sx sy c : scaleCoordinate sx sy c c = c.
Proof. destruct c; unfold scaleCoordinate; cbn [fst snd]; apply pair_eq; ring. Qed.

(** Rotating about [c] is rotating about [P] and translating. *)
Lemma rotate_recenter a c P p :
  rotateCoordinate a c p =
  (((fst c - fst P) - (fst c - fst P) * cos a + (snd c - snd P) * sin a)
     + 1 * fst (rotateCoordinate a P p),
   ((snd c - snd P) - (fst c - fst P) * sin a - (snd c - snd P) * cos a)
     + 1 * snd (rotateCoordinate a P p)).
Proof. unfold rotateCoordinate; cbn [fst snd]; apply pair_eq; ring. Qed.

Lemma rotate_recenter_back a c P q :
  rotateCoordinate a c
    (((fst c - fst P) - (fst c - fst P) * cos (- a) + (snd c - snd P) * sin (- a)) + 1 * fst q,
     ((snd c - snd P) - (fst c - fst P) * sin (- a) - (snd c - snd P) * cos (- a)) + 1 * snd q) =
  rotateCoordinate a P q.
Proof.
  destruct c as [cx cy], P as [px py], q as [x y]; unfold rotateCoordinate; cbn [fst snd].
  rewrite cos_neg, sin_neg; pose proof (sin2_cos2 a) as H; unfold Rsqr in H.
  apply pair_eq; nsatz.
Qed.

(** The ring point [i] of the oriented box does not depend on the point
    the construction turns about. *)
Lemma orientedBox_ring g a P i :
  (0 <= i <= 7)%Z -> gcoords g <> [] ->
  calcScaleHandleCoord (orientedBoxCoords g a) i =
  rotateCoordinate a P
    (calcScaleHandleCoord
       (rearrangeCoords (gcoords (fromExtent
          (boundingExtent (map (rotateCoordinate (- a) P) (gcoords g)))))) i).
Proof.
  intros Hi Hg; unfold orientedBoxCoords, getExtent, geomRotate; cbn [gcoords].
  set (c := getCenter (boundingExtent (gcoords g))).
  set (dx := (fst c - fst P) - (fst c - fst P) * cos (- a) + (snd c - snd P) * sin (- a)).
  set (dy := (snd c - snd P) - (fst c - fst P) * sin (- a) - (snd c - snd P) * cos (- a)).
  set (T := (fun q : Coordinate => (dx + 1 * fst q, dy + 1 * snd q)) : Coordinate -> Coordinate).
  set (L := map (rotateCoordinate (- a) P) (gcoords g)).
  assert (HT : forall q, T q = (dx + 1 * fst q, dy + 1 * snd q)) by reflexivity.
  assert (HL : map (rotateCoordinate (- a) c) (gcoords g) = map T L).
  { unfold L; rewrite map_map; apply map_ext; intros q; apply rotate_recenter. }
  assert (HL0 : L <> []) by (unfold L; destruct (gcoords g); [contradiction|discriminate]).
  rewrite HL, (extent_affine T dx 1 dy 1 ltac:(lra) ltac:(lra) HT L HL0).
  rewrite (rearrange_affine T dx 1 dy 1 ltac:(lra) ltac:(lra) HT), map_map.
  rewrite (calcScaleHandleCoord_map (fun q => rotateCoordinate a c (T q))).
  - unfold T; apply rotate_recenter_back.
  - intros p q; cbn beta; rewrite (affine_mid T dx 1 dy 1 HT); apply rotate_mid.
  - unfold rearrangeCoords; cbn [length]; lia.
  - exact Hi.
Qed.

(** Scaling in the box's frame about its ring point [i] by nonnegative
    factors leaves that ring point of the new box where it was. *)
Lemma scale_about_ring_point g a i sx sy :
  (0 <= i <= 7)%Z -> gcoords g <> [] -> 0 <= sx -> 0 <= sy ->
  let A := calcScaleHandleCoord (orientedBoxCoords g a) i in
  calcScaleHandleCoord
    (orientedBoxCoords (geomRotate a A (geomScale sx sy A (geomRotate (- a) A g))) a) i = A.
Proof.
  intros Hi Hg Hsx Hsy A.
  set (L := map (rotateCoordinate (- a) A) (gcoords g)).
  set (R := rearrangeCoords (gcoords (fromExtent (boundingExtent L)))).
  assert (HL0 : L <> []) by (unfold L; destruct (gcoords g); [contradiction|discriminate]).
  assert (HR : calcScaleHandleCoord R i = A).
  { pose proof (orientedBox_ring g a A i Hi Hg) as H1; fold A L R in H1.
    apply (f_equal (rotateCoordinate (- a) A)) in H1.
    rewrite rotate_inv, rotate_anchor in H1; symmetry; exact H1. }
  set (S := scaleCoordinate sx sy A).
  assert (HS : forall q, S q = ((fst A - sx * fst A) + sx * fst q, (snd A - sy * snd A) + sy * snd q))
    by (intros q; unfold S, scaleCoordinate; apply pair_eq; ring).
  assert (Hg' : gcoords (geomRotate a A (geomScale sx sy A (geomRotate (- a) A g))) <> [])
    by (unfold geomRotate, geomScale; cbn [gcoords]; destruct (gcoords g);
        [contradiction|discriminate]).
  rewrite (orientedBox_ring _ a A i Hi Hg').
  replace (map (rotateCoordinate (- a) A)
             (gcoords (geomRotate a A (geomScale sx sy A (geomRotate (- a) A g)))))
    with (map S L).
  2:{ unfold geomRotate, geomScale, L, S; cbn [gcoords]; rewrite !map_map.
      apply map_ext; intros q; rewrite rotate_inv; reflexivity. }
  rewrite (extent_affine S _ sx _ sy Hsx Hsy HS L HL0).
  rewrite (rearrange_affine S _ sx _ sy Hsx Hsy HS); fold R.
  rewrite (calcScaleHandleCoord_map S).
  - rewrite HR; unfold S; rewrite scale_anchor; apply rotate_anchor.
  - exact (affine_mid S _ sx _ sy HS).
  - unfold R, rearrangeCoords; cbn [length]; lia.
  - exact Hi.
Qed.

Lemma squareScaledTo_extent_gen x y :
  0 <= x -> y <= 0 -> getExtent (squareScaledTo (x, y)) = mkExtent 0 y x 0.
Proof.
  intros Hx Hy; unfold getExtent, squareScaledTo; simpl; unfold extendCoordinate; simpl.
  rminmax; reflexivity.
Qed.

(** C8 (as the code has it): on a scale frame whose factors [scaleX] and
    [scaleY] are both nonnegative, for the [i]-th selected feature whose
    angle is that of its snapshot entry, the ring point [oppositeIdx] of
    the oriented box recomputed from the feature after the frame is the
    ring point [oppositeIdx] of the snapshot's box, the anchor the frame
    scaled about.  The pointer-down sets [oppositeIdx] to
    [(index + 4) rem 8] ([initScaling]).  The box the factors are computed
    from has nonzero width [w] and height [h]: for a zero one JavaScript's
    factors are infinite or NaN and the geometry becomes NaN. *)
Theorem scale_anchor_fixed s p i f id :
  mode s = MScale -> NoDup (selections s) ->
  nth_error (prevSelections s) i = Some f -> nth_error (selections s) i = Some id ->
  fangle (store s id) = fangle f -> gcoords (fgeom f) <> [] ->
  (0 <= oppositeIdx (scalingSelection s) <= 7)%Z ->
  w (scalingSelection s) <> 0 -> h (scalingSelection s) <> 0 ->
  0 <= fst (scaleFactors (scalingSelection s) p) ->
  0 <= snd (scaleFactors (scalingSelection s) p) ->
  let f' := store (handleDragEvent s p) id in
  calcScaleHandleCoord (orientedBoxCoords (fgeom f') (featureAngle f'))
    (oppositeIdx (scalingSelection s)) =
  calcScaleHandleCoord (orientedBoxCoords (fgeom f) (featureAngle f))
    (oppositeIdx (scalingSelection s)).
Proof.
  intros Hm Hnd Hf Hid Ha Hg Hi _ _ Hsx Hsy; cbv zeta.
  rewrite handleDragEvent_scale by exact Hm; cbv zeta; cbn [store].
  rewrite (setGeometries_at _ _ _ _ i id f Hnd Hid Hf); cbn [fgeom].
  replace (featureAngle (mkFeature _ (fangle (store s id)))) with (featureAngle f)
    by (unfold featureAngle; cbn [fangle]; rewrite Ha; reflexivity).
  unfold scaledGeometry; cbv zeta.
  exact (scale_about_ring_point (fgeom f) (featureAngle f) _ _ _ Hi Hg Hsx Hsy).
Qed.

(** The square, angle 0, corner 6 dragged to (20,20). *)
Lemma scale_anchor_fixed_witness :
  let s := squareScalePressed (Some 0) in
  let f := mkFeature square (Some 0) in
  mode s = MScale /\ NoDup (selections s) /\
  nth_error (prevSelections s) 0 = Some f /\ nth_error (selections s) 0 = Some 0%nat /\
  fangle (store s 0%nat) = fangle f /\ gcoords (fgeom f) <> [] /\
  (0 <= oppositeIdx (scalingSelection s) <= 7)%Z /\
  w (scalingSelection s) <> 0 /\ h (scalingSelection s) <> 0 /\
  0 <= fst (scaleFactors (scalingSelection s) (20, 20)) /\
  0 <= snd (scaleFactors (scalingSelection s) (20, 20)) /\
  (let f' := store (handleDragEvent s (20, 20)) 0%nat in
   calcScaleHandleCoord (orientedBoxCoords (fgeom f') (featureAngle f'))
     (oppositeIdx (scalingSelection s)) =
   calcScaleHandleCoord (orientedBoxCoords (fgeom f) (featureAngle f))
     (oppositeIdx (scalingSelection s))).
Proof.
  cbv zeta.
  assert (H1 : mode (squareScalePressed (Some 0)) = MScale) by reflexivity.
  assert (H2 : NoDup (selections (squareScalePressed (Some 0))))
    by (change (NoDup [0%nat]); repeat constructor; simpl; tauto).
  assert (H3 : nth_error (prevSelections (squareScalePressed (Some 0))) 0 =
               Some (mkFeature square (Some 0))) by reflexivity.
  assert (H4 : nth_error (selections (squareScalePressed (Some 0))) 0 = Some 0%nat)
    by reflexivity.
  assert (H5 : fangle (store (squareScalePressed (Some 0)) 0%nat) =
               fangle (mkFeature square (Some 0))) by reflexivity.
  assert (H6 : gcoords (fgeom (mkFeature square (Some 0))) <> []) by discriminate.
  assert (E : scalingSelection (squareScalePressed (Some 0)) =
              mkScalingSelection 0 10 10 6 2 (0, 0) (10, 10))
    by (rewrite squareScalePressed_eq by reflexivity; reflexivity).
  assert (H7 : (0 <= oppositeIdx (scalingSelection (squareScalePressed (Some 0%R))) <= 7)%Z)
    by (rewrite E; cbn [oppositeIdx]; lia).
  assert (Hw : w (scalingSelection (squareScalePressed (Some 0))) <> 0)
    by (rewrite E; cbn [w]; lra).
  assert (Hh : h (scalingSelection (squareScalePressed (Some 0))) <> 0)
    by (rewrite E; cbn [h]; lra).
  assert (H8 : 0 <= fst (scaleFactors (scalingSelection (squareScalePressed (Some 0))) (20, 20)))
    by (rewrite E, scaleFactors_square; cbn [fst]; lra).
  assert (H9 : 0 <= snd (scaleFactors (scalingSelection (squareScalePressed (Some 0))) (20, 20)))
    by (rewrite E, scaleFactors_square; cbn [snd]; lra).
  split; [exact H1|]. split; [exact H2|]. split; [exact H3|]. split; [exact H4|].
  split; [exact H5|]. split; [exact H6|]. split; [exact H7|]. split; [exact Hw|].
  split; [exact Hh|]. split; [exact H8|]. split; [exact H9|].
  exact (scale_anchor_fixed (squareScalePressed (Some 0)) (20, 20) 0 _ 0
           H1 H2 H3 H4 H5 H6 H7 Hw Hh H8 H9).
Defined.

(** C8 fails as stated: the square, angle 0, corner 6 dragged to (20,-10)
    (factors (2,-1)): the anchor, ring point 2 of the box before the frame,
    is (0,0); ring point 2 of the box after the frame is (0,-10). *)
Lemma flipped_anchor_moves_counterexample :
  let s := squareScalePressed (Some 0) in
  let f' := store (handleDragEvent s (20, -10)) 0%nat in
  oppositeIdx (scalingSelection s) = 2%Z /\
  scaleFactors (scalingSelection s) (20, -10) = (2, -1) /\
  calcScaleHandleCoord (orientedBoxCoords square 0) 2 = (0, 0) /\
  calcScaleHandleCoord (orientedBoxCoords (fgeom f') (featureAngle f')) 2 = (0, -10) /\
  ((0, -10) : Coordinate) <> (0, 0).
Proof.
  cbv zeta.
  assert (E : scalingSelection (squareScalePressed (Some 0)) =
              mkScalingSelection 0 10 10 6 2 (0, 0) (10, 10))
    by (rewrite squareScalePressed_eq by reflexivity; reflexivity).
  split; [rewrite E; reflexivity|].
  split; [rewrite E, scaleFactors_square; cbn [fst snd]; apply pair_eq; field|].
  split; [rewrite square_box; reflexivity|].
  split; [|intros H; injection H; lra].
  rewrite (squareScalePressed_drag (Some 0) (20, -10) eq_refl); cbn [store].
  rewrite setGeometry_same; cbn [fgeom].
  change (featureAngle (mkFeature (squareScaledTo (20, -10)) (fangle (squareStore (Some 0) 0%nat))))
    with 0.
  rewrite orientedBoxCoords_0, squareScaledTo_extent_gen by lra.
  unfold rearrangeCoords, fromExtent; cbn [gcoords nth fst snd eMinX eMinY eMaxX eMaxY].
  rminmax; reflexivity.
Qed.

(** * Further properties of the code *)

Lemma min4_le a b c d :
  let m := Rmin (Rmin (Rmin a b) c) d in m <= a /\ m <= b /\ m <= c /\ m <= d.
Proof. cbv zeta; unfold Rmin; repeat destruct Rle_dec; lra. Qed.

Lemma max4_ge a b c d :
  let m := Rmax (Rmax (Rmax a b) c) d in a <= m /\ b <= m /\ c <= m /\ d <= m.
Proof. cbv zeta; unfold Rmax; repeat destruct Rle_dec; lra. Qed.

Lemma rearrange_box x0 y0 x1 y1 :
  x0 <= x1 -> y0 <= y1 ->
  rearrangeCoords [(x0, y1); (x0, y0); (x1, y0); (x1, y1); (x0, y1)] =
  [(x0, y1); (x0, y0); (x1, y0); (x1, y1); (x0, y1)].
Proof. intros Hx Hy; unfold rearrangeCoords; cbn [nth fst snd]; rminmax; reflexivity. Qed.

(** [rearrangeCoords] is idempotent: rearranging an already rearranged
    ring gives it back. *)
Theorem rearrangeCoords_idempotent l : rearrangeCoords (rearrangeCoords l) = rearrangeCoords l.
Proof.
  remember (rearrangeCoords l) as r eqn:E; unfold rearrangeCoords in E; cbv zeta in E.
  rewrite E; apply rearrange_box.
  - destruct (min4_le (fst (nth 0 l origin)) (fst (nth 1 l origin)) (fst (nth 2 l origin))
                      (fst (nth 3 l origin))) as (H & _).
    destruct (max4_ge (fst (nth 0 l origin)) (fst (nth 1 l origin)) (fst (nth 2 l origin))
                      (fst (nth 3 l origin))) as (H' & _).
    lra.
  - destruct (min4_le (snd (nth 0 l origin)) (snd (nth 1 l origin)) (snd (nth 2 l origin))
                      (snd (nth 3 l origin))) as (H & _).
    destruct (max4_ge (snd (nth 0 l origin)) (snd (nth 1 l origin)) (snd (nth 2 l origin))
                      (snd (nth 3 l origin))) as (H' & _).
    lra.
Qed.

(** [rearrangeCoords] returns a closed ring of five points with
    axis-parallel sides in the order top-left, bottom-left, bottom-right,
    top-right, top-left, and the rectangle it spans contains each of the
    first four input points. *)
Theorem rearrangeCoords_encloses l k :
  (k < 4)%nat ->
  let r := rearrangeCoords l in
  let c := nth k l origin in
  length r = 5%nat /\ nth 0 r origin = nth 4 r origin /\
  fst (nth 0 r origin) = fst (nth 1 r origin) /\ snd (nth 1 r origin) = snd (nth 2 r origin) /\
  fst (nth 2 r origin) = fst (nth 3 r origin) /\ snd (nth 3 r origin) = snd (nth 0 r origin) /\
  fst (nth 1 r origin) <= fst c <= fst (nth 2 r origin) /\
  snd (nth 1 r origin) <= snd c <= snd (nth 0 r origin).
Proof.
  intros Hk; unfold rearrangeCoords; cbv zeta; cbn [nth fst snd length].
  destruct (min4_le (fst (nth 0 l origin)) (fst (nth 1 l origin)) (fst (nth 2 l origin))
                    (fst (nth 3 l origin))) as (A0 & A1 & A2 & A3).
  destruct (max4_ge (fst (nth 0 l origin)) (fst (nth 1 l origin)) (fst (nth 2 l origin))
                    (fst (nth 3 l origin))) as (B0 & B1 & B2 & B3).
  destruct (min4_le (snd (nth 0 l origin)) (snd (nth 1 l origin)) (snd (nth 2 l origin))
                    (snd (nth 3 l origin))) as (C0 & C1 & C2 & C3).
  destruct (max4_ge (snd (nth 0 l origin)) (snd (nth 1 l origin)) (snd (nth 2 l origin))
                    (snd (nth 3 l origin))) as (D0 & D1 & D2 & D3).
  split_and; try reflexivity;
    (destruct k as [|[|[|[|k]]]]; [lra|lra|lra|lra|lia]).
Qed.

Lemma rearrangeCoords_encloses_witness :
  (2 < 4)%nat /\ length (rearrangeCoords (gcoords square)) = 5%nat.
Proof.
  assert (H : (2 < 4)%nat) by lia.
  split; [exact H|exact (proj1 (rearrangeCoords_encloses (gcoords square) 2 H))].
Defined.

Lemma Rsqr_abs_mult x : Rabs x * Rabs x = x * x.
Proof. rewrite <- Rabs_mult; apply Rabs_right; nra. Qed.

(** [calcDistance] is nonnegative and symmetric, and it is zero exactly
    for equal coordinates. *)
Theorem calcDistance_metric c1 c2 :
  0 <= calcDistance c1 c2 /\ calcDistance c1 c2 = calcDistance c2 c1 /\
  (calcDistance c1 c2 = 0 <-> c1 = c2).
Proof.
  destruct c1 as [x1 y1], c2 as [x2 y2]; unfold calcDistance, calcSize; cbn [fst snd].
  rewrite !Rsqr_abs_mult; split_and.
  - apply sqrt_pos.
  - replace ((x2 - x1) * (x2 - x1) + (y2 - y1) * (y2 - y1))
      with ((x1 - x2) * (x1 - x2) + (y1 - y2) * (y1 - y2)) by ring; reflexivity.
  - split.
    + intros H; assert (H0 : 0 <= (x1 - x2) * (x1 - x2) + (y1 - y2) * (y1 - y2))
        by (pose proof (Rle_0_sqr (x1 - x2)); pose proof (Rle_0_sqr (y1 - y2)); unfold Rsqr in *; lra).
      apply (sqrt_eq_0 _ H0) in H.
      pose proof (Rle_0_sqr (x1 - x2)); pose proof (Rle_0_sqr (y1 - y2)); unfold Rsqr in *.
      assert (Hx : (x1 - x2) * (x1 - x2) = 0) by lra.
      assert (Hy : (y1 - y2) * (y1 - y2) = 0) by lra.
      apply Rmult_integral in Hx, Hy; apply pair_eq; lra.
    + intros E; injection E as -> ->; replace ((x2 - x2) * (x2 - x2) + (y2 - y2) * (y2 - y2))
        with 0 by ring; apply sqrt_0.
Qed.

Lemma calcDistance_rotateCoordinate t a p q :
  calcDistance (rotateCoordinate t a p) (rotateCoordinate t a q) = calcDistance p q.
Proof.
  destruct p as [x1 y1], q as [x2 y2], a as [ax ay];
    unfold calcDistance, calcSize, rotateCoordinate; cbn [fst snd].
  rewrite !Rsqr_abs_mult; f_equal.
  pose proof (sin2_cos2 t) as H; unfold Rsqr in H; nsatz.
Qed.

(** [Transform.rotatePoint] computes the same point as the OpenLayers
    geometry rotation, rotating by [-t] undoes rotating by [t], and it
    preserves [calcDistance]. *)
Theorem rotatePoint_rigid p q a t :
  rotatePoint p a t = rotateCoordinate t a p /\
  rotatePoint (rotatePoint p a t) a (- t) = p /\
  calcDistance (rotatePoint p a t) (rotatePoint q a t) = calcDistance p q.
Proof.
  assert (E : forall r, rotatePoint r a t = rotateCoordinate t a r).
  { intros [x y]; destruct a; unfold rotatePoint, rotateCoordinate; cbn [fst snd];
      apply pair_eq; ring. }
  assert (E' : forall r, rotatePoint r a (- t) = rotateCoordinate (- t) a r).
  { intros [x y]; destruct a; unfold rotatePoint, rotateCoordinate; cbn [fst snd];
      apply pair_eq; ring. }
  split_and; [apply E| |].
  - rewrite E', E; apply rotate_inv.
  - rewrite !E; apply calcDistance_rotateCoordinate.
Qed.

Lemma box_ring_sym x0 y0 x1 y1 z i j :
  (i, j) = (0, 4)%Z \/ (i, j) = (1, 5)%Z \/ (i, j) = (2, 6)%Z \/ (i, j) = (3, 7)%Z \/
  (i, j) = (4, 0)%Z \/ (i, j) = (5, 1)%Z \/ (i, j) = (6, 2)%Z \/ (i, j) = (7, 3)%Z ->
  let R := [(x0, y1); (x0, y0); (x1, y0); (x1, y1); z] in
  fst (calcScaleHandleCoord R i) + fst (calcScaleHandleCoord R j) =
  fst (calcScaleHandleCoord R 0) + fst (calcScaleHandleCoord R 4) /\
  snd (calcScaleHandleCoord R i) + snd (calcScaleHandleCoord R j) =
  snd (calcScaleHandleCoord R 0) + snd (calcScaleHandleCoord R 4).
Proof.
  intros H; cbv zeta.
  destruct H as [H|[H|[H|[H|[H|[H|[H|H]]]]]]]; injection H as -> ->;
    unfold calcScaleHandleCoord; cbn [nth]; rewrite ?center_pair; cbn [fst snd]; split; field.
Qed.

Lemma rotate_sum a c p q u v :
  fst p + fst q = fst u + fst v -> snd p + snd q = snd u + snd v ->
  fst (rotateCoordinate a c p) + fst (rotateCoordinate a c q) =
  fst (rotateCoordinate a c u) + fst (rotateCoordinate a c v) /\
  snd (rotateCoordinate a c p) + snd (rotateCoordinate a c q) =
  snd (rotateCoordinate a c u) + snd (rotateCoordinate a c v).
Proof.
  destruct p, q, u, v, c; unfold rotateCoordinate; cbn [fst snd]; intros H1 H2.
  split; nsatz.
Qed.

(** For a ring index [i] in 0..7, the index [(i + 4) % 8] that the scale
    gesture uses as its anchor lies in 0..7, and the two ring points of the
    oriented box are symmetric about the box's center: their coordinate sum
    is that of ring points 0 and 4. *)
Theorem opposite_handles_symmetric g a i :
  (0 <= i <= 7)%Z -> gcoords g <> [] ->
  let P := calcScaleHandleCoord (orientedBoxCoords g a) in
  let j := Z.rem (i + halfRing) (Z.of_nat scaleHandlesLength) in
  (0 <= j <= 7)%Z /\
  fst (P i) + fst (P j) = fst (P 0%Z) + fst (P 4%Z) /\
  snd (P i) + snd (P j) = snd (P 0%Z) + snd (P 4%Z).
Proof.
  intros Hi Hg; cbv zeta.
  assert (Hj : (i, Z.rem (i + halfRing) (Z.of_nat scaleHandlesLength)) = (0, 4)%Z \/
               (i, Z.rem (i + halfRing) (Z.of_nat scaleHandlesLength)) = (1, 5)%Z \/
               (i, Z.rem (i + halfRing) (Z.of_nat scaleHandlesLength)) = (2, 6)%Z \/
               (i, Z.rem (i + halfRing) (Z.of_nat scaleHandlesLength)) = (3, 7)%Z \/
               (i, Z.rem (i + halfRing) (Z.of_nat scaleHandlesLength)) = (4, 0)%Z \/
               (i, Z.rem (i + halfRing) (Z.of_nat scaleHandlesLength)) = (5, 1)%Z \/
               (i, Z.rem (i + halfRing) (Z.of_nat scaleHandlesLength)) = (6, 2)%Z \/
               (i, Z.rem (i + halfRing) (Z.of_nat scaleHandlesLength)) = (7, 3)%Z).
  { assert (i = 0 \/ i = 1 \/ i = 2 \/ i = 3 \/ i = 4 \/ i = 5 \/ i = 6 \/ i = 7)%Z as Hc by lia.
    destruct Hc as [->|[->|[->|[->|[->|[->|[->| ->]]]]]]]; cbv; tauto. }
  set (j := Z.rem (i + halfRing) (Z.of_nat scaleHandlesLength)) in *.
  assert (Hj7 : (0 <= j <= 7)%Z)
    by (destruct Hj as [H|[H|[H|[H|[H|[H|[H|H]]]]]]]; injection H as _ ->; lia).
  split; [exact Hj7|].
  rewrite !(orientedBox_ring g a origin) by (assumption || lia).
  set (R := rearrangeCoords _).
  assert (ER : exists x0 y0 x1 y1 z, R = [(x0, y1); (x0, y0); (x1, y0); (x1, y1); z]).
  { unfold R, rearrangeCoords; cbv zeta; do 5 eexists; reflexivity. }
  destruct ER as (x0 & y0 & x1 & y1 & z & ER); rewrite ER.
  destruct (box_ring_sym x0 y0 x1 y1 z i j Hj) as [H1 H2].
  exact (rotate_sum _ _ _ _ _ _ H1 H2).
Qed.

Lemma opposite_handles_symmetric_witness :
  (0 <= 6 <= 7)%Z /\ gcoords square <> [] /\
  (0 <= Z.rem (6 + halfRing) (Z.of_nat scaleHandlesLength) <= 7)%Z.
Proof.
  assert (H1 : (0 <= 6 <= 7)%Z) by lia.
  assert (H2 : gcoords square <> []) by discriminate.
  split; [exact H1|]. split; [exact H2|].
  exact (proj1 (opposite_handles_symmetric square 0 6 H1 H2)).
Defined.

Lemma within_extend e p q :
  eMinX e <= fst p <= eMaxX e /\ eMinY e <= snd p <= eMaxY e ->
  let e' := extendCoordinate e q in eMinX e' <= fst p <= eMaxX e' /\ eMinY e' <= snd p <= eMaxY e'.
Proof.
  cbv zeta; unfold extendCoordinate; cbn [eMinX eMinY eMaxX eMaxY].
  pose proof (Rmin_l (eMinX e) (fst q)); pose proof (Rmin_l (eMinY e) (snd q)).
  pose proof (Rmax_l (eMaxX e) (fst q)); pose proof (Rmax_l (eMaxY e) (snd q)). lra.
Qed.

Lemma within_extend_self e q :
  let e' := extendCoordinate e q in eMinX e' <= fst q <= eMaxX e' /\ eMinY e' <= snd q <= eMaxY e'.
Proof.
  cbv zeta; unfold extendCoordinate; cbn [eMinX eMinY eMaxX eMaxY].
  pose proof (Rmin_r (eMinX e) (fst q)); pose proof (Rmin_r (eMinY e) (snd q)).
  pose proof (Rmax_r (eMaxX e) (fst q)); pose proof (Rmax_r (eMaxY e) (snd q)). lra.
Qed.

Lemma within_fold l e p :
  (eMinX e <= fst p <= eMaxX e /\ eMinY e <= snd p <= eMaxY e) \/ In p l ->
  let e' := fold_left extendCoordinate l e in
  eMinX e' <= fst p <= eMaxX e' /\ eMinY e' <= snd p <= eMaxY e'.
Proof.
  revert e; induction l as [|q l IH]; intros e H; cbv zeta; cbn [fold_left].
  - destruct H as [H|[]]; exact H.
  - apply IH; destruct H as [H|[->|H]];
      [left; apply within_extend, H|left; apply within_extend_self|right; exact H].
Qed.

Lemma boundingExtent_within l p :
  In p l ->
  let e := boundingExtent l in eMinX e <= fst p <= eMaxX e /\ eMinY e <= snd p <= eMaxY e.
Proof.
  destruct l as [|q l]; [intros []|]; intros H; cbv zeta; cbn [boundingExtent].
  apply within_fold; destruct H as [->|H]; [left|right; exact H].
  cbn; lra.
Qed.

(** For a polygon, [genTranslateHandle] gives a translate handle for the
    feature whose geometry is the rectangle of the feature's extent, and that
    rectangle contains every coordinate of the polygon. *)
Theorem genTranslateHandle_encloses id f :
  gkind (fgeom f) = GPolygon ->
  let hd := genTranslateHandle id f in
  let e := getExtent (fgeom f) in
  hmode hd = MTranslate /\ body hd = id /\ hgeom hd = fromExtent e /\
  (forall p, In p (gcoords (fgeom f)) ->
     eMinX e <= fst p <= eMaxX e /\ eMinY e <= snd p <= eMaxY e).
Proof.
  intros Hk; cbv zeta; unfold genTranslateHandle; rewrite Hk; cbn [hmode body hgeom].
  split_and; try reflexivity; intros p Hp; exact (boundingExtent_within _ _ Hp).
Qed.

Lemma genTranslateHandle_encloses_witness :
  gkind (fgeom (mkFeature square None)) = GPolygon /\
  hgeom (genTranslateHandle 0 (mkFeature square None)) = fromExtent (getExtent square).
Proof.
  assert (H : gkind (fgeom (mkFeature square None)) = GPolygon) by reflexivity.
  split; [exact H|].
  exact (proj1 (proj2 (proj2 (genTranslateHandle_encloses 0 (mkFeature square None) H)))).
Defined.

Lemma Int_part_range r n : IZR n <= r < IZR n + 1 -> Int_part r = n.
Proof.
  intros H; unfold Int_part.
  rewrite <- (tech_up r (n + 1)); [ring| |]; rewrite plus_IZR; simpl IZR; lra.
Qed.


Lemma jsRem_period a b : exists k, jsRem a b = a - b * IZR k.
Proof. exists (Rtrunc (a / b)); reflexivity. Qed.

Lemma cos_sin_minus_turns x k : cos (x - 2 * PI * IZR k) = cos x /\ sin (x - 2 * PI * IZR k) = sin x.
Proof.
  destruct (Z_le_gt_dec 0 k) as [Hk|Hk].
  - rewrite <- (Z2Nat.id k Hk), <- INR_IZR_INZ; set (n := Z.to_nat k).
    rewrite <- (cos_period (x - 2 * PI * INR n) n), <- (sin_period (x - 2 * PI * INR n) n).
    replace (x - 2 * PI * INR n + 2 * INR n * PI) with x by ring; split; reflexivity.
  - replace k with (- Z.of_nat (Z.to_nat (- k)))%Z by lia.
    rewrite opp_IZR, <- INR_IZR_INZ; set (n := Z.to_nat (- k)).
    replace (x - 2 * PI * - INR n) with (x + 2 * INR n * PI) by ring.
    rewrite cos_period, sin_period; split; reflexivity.
Qed.

(** The angle a rotate frame writes is [(a + da) % 2π] and the angle the
    head-inversion correction writes is [(a + π) % 2π].  A value [x % 2π]
    lies strictly between -2π and 2π, has the sign of [x] (or is zero),
    and has the same cosine and sine as [x]. *)
Theorem written_angles_in_range f da a :
  fangle f = Some a ->
  fangle (rotatedAngle da f) = Some (jsRem (a + da) (2 * PI)) /\
  fangle (flipped f) = Some (jsRem (a + PI) (2 * PI)) /\
  (forall x, let y := jsRem x (2 * PI) in
     - (2 * PI) < y < 2 * PI /\ (0 <= x -> 0 <= y) /\ (x < 0 -> y <= 0) /\
     cos y = cos x /\ sin y = sin x).
Proof.
  intros Ha; split_and.
  - unfold rotatedAngle; rewrite Ha; reflexivity.
  - unfold flipped; rewrite Ha; reflexivity.
  - intros x; cbv zeta; pose proof PI_RGT_0 as Hpi.
    destruct (jsRem_bounds x (2 * PI) ltac:(lra)) as [B1 B2].
    destruct (jsRem_period x (2 * PI)) as [k Ek].
    destruct (cos_sin_minus_turns x k) as [C S].
    rewrite Ek in *; rewrite C, S.
    destruct (Rle_dec 0 x) as [Hx|Hx];
      [specialize (B1 Hx)|assert (Hx' : x < 0) by lra; specialize (B2 Hx')];
      split_and; try reflexivity; intros; lra.
Qed.

Lemma written_angles_in_range_witness :
  fangle (mkFeature square (Some 0)) = Some 0 /\
  fangle (flipped (mkFeature square (Some 0))) = Some (jsRem (0 + PI) (2 * PI)).
Proof.
  assert (H : fangle (mkFeature square (Some 0)) = Some 0) by reflexivity.
  split; [exact H|].
  exact (proj1 (proj2 (written_angles_in_range (mkFeature square (Some 0)) 0 0 H))).
Defined.

(** Rotating by π about [c] is the point reflection through [c]. *)
Lemma rotate_PI c p : rotateCoordinate PI c p = (2 * fst c - fst p, 2 * snd c - snd p).
Proof. unfold rotateCoordinate; rewrite cos_PI, sin_PI; apply pair_eq; ring. Qed.

Lemma Rmin_reflect t x y : Rmin (t - x) (t - y) = t - Rmax x y.
Proof. unfold Rmin, Rmax; destruct (Rle_dec x y), (Rle_dec (t - x) (t - y)); lra. Qed.

Lemma Rmax_reflect t x y : Rmax (t - x) (t - y) = t - Rmin x y.
Proof. unfold Rmin, Rmax; destruct (Rle_dec x y), (Rle_dec (t - x) (t - y)); lra. Qed.

Lemma fold_extend_reflect tx ty l e :
  fold_left extendCoordinate (map (fun p => (tx - fst p, ty - snd p)) l)
    (mkExtent (tx - eMaxX e) (ty - eMaxY e) (tx - eMinX e) (ty - eMinY e)) =
  let e' := fold_left extendCoordinate l e in
  mkExtent (tx - eMaxX e') (ty - eMaxY e') (tx - eMinX e') (ty - eMinY e').
Proof.
  revert e; induction l as [|p l IH]; intros e; [reflexivity|].
  cbn [map fold_left]; rewrite <- IH; f_equal; unfold extendCoordinate; cbn [fst snd eMinX eMinY eMaxX eMaxY].
  rewrite !Rmin_reflect, !Rmax_reflect; reflexivity.
Qed.

Lemma flip_geometry_center g :
  let c := getCenter (getExtent g) in
  getCenter (getExtent (geomRotate PI c g)) = c.
Proof.
  cbv zeta; destruct g as [k [|p l]]; [reflexivity|].
  unfold getExtent, geomRotate; cbn [gcoords].
  set (c := getCenter (boundingExtent (p :: l))).
  rewrite (map_ext _ (fun q => (2 * fst c - fst q, 2 * snd c - snd q))) by apply rotate_PI.
  cbn [map boundingExtent]; cbn [fst snd].
  pose proof (fold_extend_reflect (2 * fst c) (2 * snd c) l (mkExtent (fst p) (snd p) (fst p) (snd p)))
    as H; cbn [eMinX eMinY eMaxX eMaxY] in H; rewrite H; clear H; cbv zeta.
  unfold c, getCenter; cbn [boundingExtent fst snd eMinX eMinY eMaxX eMaxY]; apply pair_eq; field.
Qed.

Lemma jsRem_shift a b n :
  0 < b -> IZR n <= a / b < IZR n + 1 -> (0 <= n)%Z -> jsRem a b = a - b * IZR n.
Proof.
  intros Hb Hq Hn; unfold jsRem, Rtrunc; apply IZR_le in Hn.
  destruct (Rle_dec 0 (a / b)); [|lra].
  rewrite (Int_part_range _ n Hq); reflexivity.
Qed.

Lemma div_range a b n : 0 < b -> IZR n * b <= a < (IZR n + 1) * b -> IZR n <= a / b < IZR n + 1.
Proof.
  intros Hb H; assert (E : a = a / b * b) by (field; lra).
  set (q := a / b) in *; rewrite E in H; split; nra.
Qed.

(** Applying the head-inversion correction twice gives the feature back
    when it has no angle or its angle lies in [0, 2π): geometry and angle
    are restored exactly. *)
Theorem flip_twice_restores f :
  fangle f = None \/ (exists a, fangle f = Some a /\ 0 <= a < 2 * PI) ->
  flipped (flipped f) = f.
Proof.
  pose proof PI_RGT_0 as Hpi.
  destruct f as [g oa]; intros [H|(a & H & Ha)]; cbn [fangle] in H; subst oa;
    [reflexivity|].
  unfold flipped at 2; cbn [fangle fgeom].
  unfold flipped; cbn [fangle fgeom]; rewrite flip_geometry_center.
  assert (Eg : geomRotate PI (getCenter (getExtent g)) (geomRotate PI (getCenter (getExtent g)) g) = g).
  { destruct g as [k l]; unfold geomRotate; cbn [gkind gcoords]; f_equal.
    rewrite map_map; rewrite <- (map_id l) at 2; apply map_ext; intros q.
    destruct q as [x y]; rewrite !rotate_PI; cbn [fst snd id]; apply pair_eq; ring. }
  rewrite Eg; f_equal; f_equal.
  destruct (Rlt_dec a PI) as [Hlt|Hge].
  - rewrite (jsRem_small (a + PI)) by lra.
    rewrite (jsRem_shift _ _ 1) by (first [lia | lra | apply div_range; simpl IZR; lra]).
    simpl IZR; ring.
  - rewrite (jsRem_shift (a + PI) _ 1) by (first [lia | lra | apply div_range; simpl IZR; lra]).
    simpl IZR; rewrite (jsRem_small (a + PI - 2 * PI * 1 + PI)) by lra; ring.
Qed.

Lemma flip_twice_restores_witness :
  (fangle (mkFeature square (Some 0)) = None \/
   exists a, fangle (mkFeature square (Some 0)) = Some a /\ 0 <= a < 2 * PI) /\
  flipped (flipped (mkFeature square (Some 0))) = mkFeature square (Some 0).
Proof.
  assert (H : fangle (mkFeature square (Some 0)) = None \/
              exists a, fangle (mkFeature square (Some 0)) = Some a /\ 0 <= a < 2 * PI).
  { right; exists 0; split; [reflexivity|]. pose proof PI_RGT_0; lra. }
  split; [exact H|exact (flip_twice_restores _ H)].
Defined.

Lemma genHandles_bodies id f hd :
  In hd (genHandles id f) -> body hd = id /\ hmode hd <> MTranslate.
Proof.
  unfold genHandles; destruct (gkind (fgeom f)); [intros []|].
  intros [<-|H]; [split; [reflexivity|discriminate]|].
  apply in_map_iff in H as (i & <- & _); split; [reflexivity|discriminate].
Qed.

(** The handles [drawHandles] puts on the handle layer all belong to
    selected features.  Every selected feature gets its translate handle.
    Rotate and scale handles belong only to the first selected feature.
    There is one handle per selected feature plus the first feature's
    [genHandles]. *)
Theorem drawnHandles_structure st sels :
  (forall hd, In hd (drawnHandles st sels) -> In (body hd) sels) /\
  (forall id, In id sels -> In (genTranslateHandle id (st id)) (drawnHandles st sels)) /\
  (forall hd, In hd (drawnHandles st sels) -> hmode hd <> MTranslate ->
     hd_error sels = Some (body hd)) /\
  length (drawnHandles st sels) =
  (length sels + match sels with [] => 0 | id :: _ => length (genHandles id (st id)) end)%nat.
Proof.
  assert (Ht : forall id f, body (genTranslateHandle id f) = id /\
                            hmode (genTranslateHandle id f) = MTranslate)
    by (intros id f; unfold genTranslateHandle; destruct (gkind (fgeom f)); split; reflexivity).
  destruct sels as [|id0 rest]; [cbn; split_and; try tauto; reflexivity|].
  unfold drawnHandles; split_and.
  - intros hd H; apply in_app_iff in H as [H|[<-|H]].
    + left; symmetry; apply (genHandles_bodies _ _ _ H).
    + left; symmetry; apply Ht.
    + apply in_map_iff in H as (id & <- & Hid); right; rewrite (proj1 (Ht _ _)); exact Hid.
  - intros id [<-|H]; apply in_app_iff; right; [left; reflexivity|right].
    apply in_map_iff; exists id; split; [reflexivity|exact H].
  - intros hd H Hm; apply in_app_iff in H as [H|[<-|H]].
    + cbn; rewrite (proj1 (genHandles_bodies _ _ _ H)); reflexivity.
    + exfalso; apply Hm, Ht.
    + apply in_map_iff in H as (id & <- & _); exfalso; apply Hm, Ht.
  - rewrite length_app; cbn [length]; rewrite length_map; lia.
Qed.

Lemma boundingExtent_ordered l :
  eMinX (boundingExtent l) <= eMaxX (boundingExtent l) /\
  eMinY (boundingExtent l) <= eMaxY (boundingExtent l).
Proof.
  destruct l as [|p l]; [cbn; lra|].
  assert (H : eMinX (boundingExtent (p :: l)) <= fst p <= eMaxX (boundingExtent (p :: l)) /\
              eMinY (boundingExtent (p :: l)) <= snd p <= eMaxY (boundingExtent (p :: l))).
  { cbn [boundingExtent].
    assert (G : forall l e, eMinX e <= fst p <= eMaxX e /\ eMinY e <= snd p <= eMaxY e ->
              let e' := fold_left extendCoordinate l e in
              eMinX e' <= fst p <= eMaxX e' /\ eMinY e' <= snd p <= eMaxY e').
    { induction l0 as [|q l0 IH]; intros e He; [exact He|]; apply IH.
      unfold extendCoordinate; cbn [eMinX eMinY eMaxX eMaxY].
      pose proof (Rmin_l (eMinX e) (fst q)); pose proof (Rmin_l (eMinY e) (snd q)).
      pose proof (Rmax_l (eMaxX e) (fst q)); pose proof (Rmax_l (eMaxY e) (snd q)). lra. }
    apply G; cbn; lra. }
  lra.
Qed.

(** For a polygon with angle 0, [genHandles] puts the rotate handle at
    the middle of the top side of the extent.  The scale handles with
    indices 0..7 go on its corners and side midpoints, counterclockwise
    from the top-left corner.  All the handles refer to the feature. *)
Theorem unrotated_polygon_handles id f :
  featureAngle f = 0 -> gkind (fgeom f) = GPolygon -> gcoords (fgeom f) <> [] ->
  let e := getExtent (fgeom f) in
  let x0 := eMinX e in let y0 := eMinY e in let x1 := eMaxX e in let y1 := eMaxY e in
  let xm := (x0 + x1) / 2 in let ym := (y0 + y1) / 2 in
  map hgeom (genHandles id f) =
  map Point [(xm, y1); (x0, y1); (x0, ym); (x0, y0); (xm, y0); (x1, y0); (x1, ym); (x1, y1); (xm, y1)] /\
  map hmode (genHandles id f) = MRotate :: repeat MScale 8 /\
  map index (genHandles id f) = [-1; 0; 1; 2; 3; 4; 5; 6; 7]%Z /\
  map body (genHandles id f) = repeat id 9.
Proof.
  intros Ha Hk _; cbv zeta; unfold genHandles; rewrite Hk, Ha, orientedBoxCoords_0.
  destruct (boundingExtent_ordered (gcoords (fgeom f))) as [Hx Hy].
  unfold getExtent in *.
  set (e := boundingExtent (gcoords (fgeom f))) in *.
  replace (rearrangeCoords (gcoords (fromExtent e))) with
    [(eMinX e, eMaxY e); (eMinX e, eMinY e); (eMaxX e, eMinY e); (eMaxX e, eMaxY e); (eMinX e, eMaxY e)]
    by (unfold rearrangeCoords, fromExtent; cbn [gcoords nth fst snd]; rminmax; reflexivity).
  split_and; try reflexivity.
  unfold scaleHandlesLength; change (map Z.of_nat (seq 0 8)) with [0; 1; 2; 3; 4; 5; 6; 7]%Z.
  unfold calcScaleHandleCoord; cbn [map nth hgeom].
  rewrite !center_pair; cbn [fst snd].
  unfold Point; coord_eq; field.
Qed.

Lemma unrotated_polygon_handles_witness :
  featureAngle (mkFeature square None) = 0 /\ gkind (fgeom (mkFeature square None)) = GPolygon /\
  gcoords (fgeom (mkFeature square None)) <> [] /\
  map body (genHandles 0 (mkFeature square None)) = repeat 0%nat 9.
Proof.
  assert (H1 : featureAngle (mkFeature square None) = 0) by reflexivity.
  assert (H2 : gkind (fgeom (mkFeature square None)) = GPolygon) by reflexivity.
  assert (H3 : gcoords (fgeom (mkFeature square None)) <> []) by discriminate.
  split; [exact H1|]. split; [exact H2|]. split; [exact H3|].
  exact (proj2 (proj2 (proj2 (unrotated_polygon_handles 0 _ H1 H2 H3)))).
Defined.

Lemma selections_selPush id s : selections (selPush id s) = selections s ++ [id].
Proof. reflexivity. Qed.

Lemma selections_selClear s : selections (selClear s) = [].
Proof. unfold selClear; destruct (selections s) eqn:E; [exact E|reflexivity]. Qed.

(** A press on a body feature returns that feature and keeps the
    selection free of duplicates.  With the additive modifier, the pressed
    feature's membership is toggled and the other members are kept.
    Without it, a press on a selected feature changes nothing, and a press
    on an unselected one makes it the only selected feature. *)
Theorem selectFeature_body_selection s id add :
  NoDup (selections s) ->
  let r := selectFeature s (Some (PBody id)) add in
  fst r = Some (PBody id) /\ NoDup (selections (snd r)) /\
  (add = true ->
     (In id (selections (snd r)) <-> ~ In id (selections s)) /\
     (forall j, j <> id -> (In j (selections (snd r)) <-> In j (selections s)))) /\
  (add = false -> In id (selections s) -> snd r = s) /\
  (add = false -> ~ In id (selections s) -> selections (snd r) = [id]).
Proof.
  intros Hnd; cbv zeta; split; [reflexivity|].
  split; [apply selectFeature_body_nodup, Hnd|].
  cbn [selectFeature snd].
  destruct (indexOf (selections s) id) as [i|] eqn:E.
  - pose proof (nth_error_In _ _ (indexOf_some _ _ _ E)) as Hin.
    split_and; intros Hadd; subst add; try discriminate.
    + destruct (remove_at_spec _ i id Hnd (indexOf_some _ _ _ E)) as (_ & Hout & Hiff).
      unfold selRemoveAt, drawHandles; cbn [selections setHandleLayer setSelections].
      split; [tauto|]. intros j Hj; rewrite Hiff; tauto.
    + intros _; reflexivity.
    + intros H; contradiction.
  - pose proof (indexOf_none _ _ E) as Hout.
    split_and; intros Hadd; subst add; try discriminate.
    + rewrite selections_selPush; split.
      * rewrite in_app_iff; cbn; tauto.
      * intros j Hj; rewrite in_app_iff; cbn; split; [intros [H|[H|[]]]; [exact H|congruence]|tauto].
    + intros H; contradiction.
    + intros _; rewrite selections_selPush, selections_selClear; reflexivity.
Qed.

(** The first click on the square, without the modifier. *)
Lemma selectFeature_body_selection_witness :
  NoDup (selections (initialTransform (squareStore None))) /\
  selections (snd (selectFeature (initialTransform (squareStore None)) (Some (PBody 0)) false)) =
  [0%nat].
Proof.
  assert (H : NoDup (selections (initialTransform (squareStore None)))) by constructor.
  split; [exact H|].
  destruct (selectFeature_body_selection (initialTransform (squareStore None)) 0 false H)
    as (_ & _ & _ & _ & E).
  exact (E eq_refl (fun Hin => Hin)).
Defined.

(** A press that hits nothing returns [false] and clears the selection
    and the snapshot.  It leaves the features and the mode as they were,
    and dispatches only mousedown.  It clears the handle layer only when
    the selection was not already empty. *)
Theorem empty_click_deselects s add c :
  let r := handleDownEvent s None add c in
  fst r = false /\ selections (snd r) = [] /\ prevSelections (snd r) = [] /\
  store (snd r) = store s /\ mode (snd r) = mode s /\
  events (snd r) = events s ++ [EMousedown] /\
  handleLayer (snd r) = match selections s with [] => handleLayer s | _ :: _ => [] end.
Proof.
  cbv zeta; unfold handleDownEvent; cbn [selectFeature]; unfold selClear.
  destruct (selections s) eqn:Es; cbn; rewrite ?Es; split_and; reflexivity.
Qed.

Lemma translateSelections_angle dx dy sels st j :
  fangle (translateSelections dx dy sels st j) = fangle (st j).
Proof.
  unfold translateSelections; revert st; induction sels as [|id sels IH]; intros st;
    [reflexivity|]; cbn [fold_left]; rewrite IH.
  unfold setGeometry; destruct (Nat.eqb j id) eqn:E; [apply Nat.eqb_eq in E; subst|]; reflexivity.
Qed.

Lemma handleDragEvent_angle s p j :
  fangle (store (handleDragEvent s p) j) = fangle (store s j).
Proof.
  destruct s as [st sels prev hl m it sc pc rs ss hi ev]; destruct m; cbn [handleDragEvent].
  - reflexivity.
  - apply translateSelections_angle.
  - apply setGeometries_angle.
  - apply setGeometries_angle.
Qed.

Lemma handleDragEvent_notin s p j :
  ~ In j (selections s) -> store (handleDragEvent s p) j = store s j.
Proof.
  destruct s as [st sels prev hl m it sc pc rs ss hi ev]; destruct m; cbn [handleDragEvent];
    intros H; cbn [selections] in H.
  - reflexivity.
  - apply translateSelections_notin, H.
  - apply setGeometries_notin, H.
  - apply setGeometries_notin, H.
Qed.

(** Neither a drag frame nor a pointer-up changes the selection, and
    neither touches a feature that is not selected. *)
Theorem drag_and_release_spare_unselected s p j :
  ~ In j (selections s) ->
  selections (handleDragEvent s p) = selections s /\
  store (handleDragEvent s p) j = store s j /\
  selections (handleUpEvent s) = selections s /\
  store (handleUpEvent s) j = store s j.
Proof.
  intros Hj; split_and.
  - apply handleDragEvent_selections.
  - apply handleDragEvent_notin, Hj.
  - rewrite handleUpEvent_eq; reflexivity.
  - rewrite handleUpEvent_eq; cbv zeta; cbn [store].
    destruct (isScale (mode s) && headInverted s); [apply flip_fold_notin, Hj|reflexivity].
Qed.

Lemma drag_and_release_spare_unselected_witness :
  ~ In 1%nat (selections (squareScalePressed (Some 0))) /\
  store (handleDragEvent (squareScalePressed (Some 0)) (20, 20)) 1%nat =
  store (squareScalePressed (Some 0)) 1%nat.
Proof.
  assert (H : ~ In 1%nat (selections (squareScalePressed (Some 0)))).
  { change (~ In 1%nat [0%nat]); intros [E|[]]; discriminate. }
  split; [exact H|].
  exact (proj1 (proj2 (drag_and_release_spare_unselected _ (20, 20) 1 H))).
Defined.

(** What a rotate or scale frame keeps of the interaction's state. *)
Lemma handleDragEvent_RS s p :
  mode s = MRotate \/ mode s = MScale ->
  let s' := handleDragEvent s p in
  mode s' = mode s /\ selections s' = selections s /\
  rotationSelection s' = rotationSelection s /\ scalingSelection s' = scalingSelection s /\
  map fgeom (prevSelections s') = map fgeom (prevSelections s) /\
  (mode s = MScale -> prevSelections s' = prevSelections s) /\
  (mode s = MRotate -> headInverted s' = headInverted s).
Proof.
  destruct s as [st sels prev hl m it sc pc rs ss hi ev]; cbn [mode];
    intros [->| ->]; cbn [handleDragEvent]; cbv zeta; cbn;
    split_and; try reflexivity; try discriminate.
  rewrite map_map; apply map_ext; intros f; unfold rotatedAngle; destruct (fangle f); reflexivity.
Qed.

Lemma dragFrames_RS s ps :
  mode s = MRotate \/ mode s = MScale ->
  let s' := dragFrames s ps in
  mode s' = mode s /\ selections s' = selections s /\
  rotationSelection s' = rotationSelection s /\ scalingSelection s' = scalingSelection s /\
  map fgeom (prevSelections s') = map fgeom (prevSelections s) /\
  (mode s = MScale -> prevSelections s' = prevSelections s) /\
  (mode s = MRotate -> headInverted s' = headInverted s).
Proof.
  revert s; induction ps as [|p ps IH]; intros s Hm; cbv zeta; [split_and; auto|].
  change (dragFrames s (p :: ps)) with (dragFrames (handleDragEvent s p) ps).
  destruct (handleDragEvent_RS s p Hm) as (H1 & H2 & H3 & H4 & H5 & H6 & H7).
  assert (Hm' : mode (handleDragEvent s p) = MRotate \/ mode (handleDragEvent s p) = MScale)
    by (rewrite H1; exact Hm).
  destruct (IH _ Hm') as (G1 & G2 & G3 & G4 & G5 & G6 & G7).
  split_and; try congruence.
  - intros Hs; rewrite G6 by congruence; apply H6, Hs.
  - intros Hs; rewrite G7 by congruence; apply H7, Hs.
Qed.

(** Drag frames never change the ["angle"] property of a live feature
    (one in the store), whatever the mode.  Translate and scale frames
    leave the snapshot ([prevFeatures]) as it is too; rotate frames keep
    the snapshot's geometries and write only its angles. *)
Theorem drag_keeps_angle_property s ps j :
  fangle (store (dragFrames s ps) j) = fangle (store s j) /\
  (mode s <> MRotate -> prevSelections (dragFrames s ps) = prevSelections s) /\
  (mode s = MRotate -> map fgeom (prevSelections (dragFrames s ps)) = map fgeom (prevSelections s)).
Proof.
  split_and.
  - revert s; induction ps as [|p ps IH]; intros s; [reflexivity|].
    change (dragFrames s (p :: ps)) with (dragFrames (handleDragEvent s p) ps).
    rewrite IH; apply handleDragEvent_angle.
  - revert s; induction ps as [|p ps IH]; intros s Hm; [reflexivity|].
    change (dragFrames s (p :: ps)) with (dragFrames (handleDragEvent s p) ps).
    rewrite IH; [apply (proj1 (snapshot_kept_by_other_steps s p)), Hm|].
    destruct (handleDragEvent_mode s p) as (E & _); rewrite E; exact Hm.
  - intros Hm; exact (proj1 (proj2 (proj2 (proj2 (proj2 (dragFrames_RS s ps (or_introl Hm))))))).
Qed.

Lemma dragFrames_notin s ps j :
  ~ In j (selections s) -> store (dragFrames s ps) j = store s j.
Proof.
  revert s; induction ps as [|p ps IH]; intros s Hj; [reflexivity|].
  change (dragFrames s (p :: ps)) with (dragFrames (handleDragEvent s p) ps).
  rewrite IH; [apply handleDragEvent_notin, Hj|rewrite handleDragEvent_selections; exact Hj].
Qed.

Lemma nth_error_fgeom (l l' : list Feature) i f :
  map fgeom l' = map fgeom l -> nth_error l i = Some f ->
  exists f', nth_error l' i = Some f' /\ fgeom f' = fgeom f.
Proof.
  intros E H; assert (H' : nth_error (map fgeom l') i = Some (fgeom f))
    by (rewrite E, nth_error_map, H; reflexivity).
  rewrite nth_error_map in H'; destruct (nth_error l' i) as [f'|]; [|discriminate].
  injection H' as H'; eauto.
Qed.

(** Rotate and scale frames are absolute.  After frames [ps] and then a
    frame at [p], the features and the head-inversion flag are exactly
    as after a single frame at [p].  This holds for a duplicate-free
    selection whose snapshot has one entry per selected feature. *)
Theorem rotate_scale_frames_absolute s ps p j :
  mode s = MRotate \/ mode s = MScale ->
  NoDup (selections s) -> length (prevSelections s) = length (selections s) ->
  store (dragFrames s (ps ++ [p])) j = store (handleDragEvent s p) j /\
  headInverted (dragFrames s (ps ++ [p])) = headInverted (handleDragEvent s p).
Proof.
  intros Hm Hnd Hlen.
  unfold dragFrames; rewrite fold_left_app; cbn [fold_left]; fold (dragFrames s ps).
  destruct (dragFrames_RS s ps Hm) as (H1 & H2 & H3 & H4 & H5 & H6 & H7).
  set (s' := dragFrames s ps) in *.
  assert (Hh : headInverted (handleDragEvent s' p) = headInverted (handleDragEvent s p)).
  { destruct Hm as [Hm|Hm];
      [rewrite !handleDragEvent_rotate by congruence|rewrite !handleDragEvent_scale by congruence];
      cbn [headInverted]; [apply H7, Hm|rewrite H4; reflexivity]. }
  split; [|exact Hh].
  destruct (In_dec Nat.eq_dec j (selections s)) as [Hj|Hj].
  2:{ rewrite !handleDragEvent_notin by (rewrite ?H2; exact Hj).
      apply dragFrames_notin, Hj. }
  destruct (In_nth_error _ _ Hj) as [i Hi].
  assert (Hp : exists f, nth_error (prevSelections s) i = Some f).
  { destruct (nth_error (prevSelections s) i) eqn:E; [eauto|].
    apply nth_error_None in E.
    assert (Hi' : nth_error (selections s) i <> None) by congruence.
    apply nth_error_Some in Hi'; lia. }
  destruct Hp as [f Hf].
  destruct (nth_error_fgeom _ _ i f H5 Hf) as (f' & Hf' & Eg).
  assert (Ha : fangle (store s' j) = fangle (store s j)) by apply drag_keeps_angle_property.
  destruct Hm as [Hm|Hm].
  - rewrite !handleDragEvent_rotate by congruence; cbv zeta; cbn [store headInverted].
    rewrite H2, H3.
    rewrite (setGeometries_at _ _ _ _ i j f' Hnd Hi Hf'), (setGeometries_at _ _ _ _ i j f Hnd Hi Hf).
    unfold rotatedGeometry; rewrite Eg, Ha; reflexivity.
  - rewrite !handleDragEvent_scale by congruence; cbv zeta; cbn [store headInverted].
    rewrite H2, H4, (H6 Hm).
    rewrite !(setGeometries_at _ _ _ _ i j f Hnd Hi Hf), Ha; reflexivity.
Qed.

(** The rotate scenario: a frame at (0,5), then one at (10,5). *)
Lemma rotate_scale_frames_absolute_witness :
  let s := squareRotatePressed (Some 0) in
  (mode s = MRotate \/ mode s = MScale) /\ NoDup (selections s) /\
  length (prevSelections s) = length (selections s) /\
  store (dragFrames s ([(0, 5)] ++ [(10, 5)])) 0%nat = store (handleDragEvent s (10, 5)) 0%nat.
Proof.
  cbv zeta.
  assert (H1 : mode (squareRotatePressed (Some 0)) = MRotate \/
               mode (squareRotatePressed (Some 0)) = MScale) by (left; reflexivity).
  assert (H2 : NoDup (selections (squareRotatePressed (Some 0))))
    by (change (NoDup [0%nat]); repeat constructor; simpl; tauto).
  assert (H3 : length (prevSelections (squareRotatePressed (Some 0))) =
               length (selections (squareRotatePressed (Some 0)))) by reflexivity.
  split; [exact H1|]. split; [exact H2|]. split; [exact H3|].
  exact (proj1 (rotate_scale_frames_absolute _ [(0, 5)] (10, 5) 0 H1 H2 H3)).
Defined.

Lemma scaleDeltas_same idx sx sy :
  fst (scaleDeltas idx sx sy sx sy) = 0 /\ snd (scaleDeltas idx sx sy sx sy) = 0.
Proof.
  unfold scaleDeltas;
    repeat match goal with |- context [match ?x with _ => _ end] => destruct x end;
    cbn [fst snd]; split; ring.
Qed.

Lemma scaleDeltas_out idx sx sy x y :
  ~ (0 <= idx <= 7)%Z -> scaleDeltas idx sx sy x y = (0, 0).
Proof.
  intros H; unfold scaleDeltas;
    repeat match goal with |- context [match ?x with _ => _ end] => destruct x end;
    reflexivity || (exfalso; apply H; lia).
Qed.

Lemma rotate_scale_1 a c q :
  rotateCoordinate a c (scaleCoordinate 1 1 c (rotateCoordinate (- a) c q)) = q.
Proof.
  replace (scaleCoordinate 1 1 c (rotateCoordinate (- a) c q)) with (rotateCoordinate (- a) c q)
    by (unfold scaleCoordinate; destruct (rotateCoordinate (- a) c q); cbn [fst snd];
        apply pair_eq; ring).
  rewrite <- (Ropp_involutive a) at 1; apply rotate_inv.
Qed.

Lemma scaledGeometry_1 opp f : scaledGeometry opp 1 1 f = fgeom f.
Proof.
  unfold scaledGeometry, geomRotate, geomScale; cbn [gkind gcoords].
  destruct f as [[k l] oa]; cbn [fgeom gkind gcoords]; f_equal.
  rewrite !map_map; rewrite <- (map_id l) at 2; apply map_ext; intros q; apply rotate_scale_1.
Qed.

(** Scale frames that do not stretch.  A frame with the pointer at the
    grabbed handle's own ring point gives the factors (1, 1), and so does
    every frame of a handle whose index is outside 0..7 (these need
    nonzero [w] and [h], as in JavaScript).  On a box of nonzero width and
    height, a frame with factors (1, 1) gives every selected feature its
    snapshot geometry and clears the head-inversion flag. *)
Theorem scale_frames_without_stretch s feat idx p i j f :
  let ss := initScaling feat idx in
  let P := calcScaleHandleCoord (orientedBoxCoords (fgeom feat) (featureAngle feat)) idx in
  w ss <> 0 -> h ss <> 0 ->
  scaleFactors ss P = (1, 1) /\
  (~ (0 <= idx <= 7)%Z -> scaleFactors ss p = (1, 1)) /\
  (mode s = MScale -> NoDup (selections s) ->
   w (scalingSelection s) <> 0 -> h (scalingSelection s) <> 0 ->
   scaleFactors (scalingSelection s) p = (1, 1) ->
   nth_error (selections s) i = Some j -> nth_error (prevSelections s) i = Some f ->
   store (handleDragEvent s p) j = mkFeature (fgeom f) (fangle (store s j)) /\
   headInverted (handleDragEvent s p) = false).
Proof.
  cbv zeta; intros Hw Hh; split_and.
  - unfold scaleFactors; cbn [oppositeCoord ssAngle handleIdx ssStartCoord w h initScaling].
    destruct (scaleDeltas_same idx
      (fst (rotatePoint (calcScaleHandleCoord (orientedBoxCoords (fgeom feat) (featureAngle feat)) idx)
         (calcScaleHandleCoord (orientedBoxCoords (fgeom feat) (featureAngle feat))
            (Z.rem (idx + halfRing) (Z.of_nat scaleHandlesLength))) (- featureAngle feat)))
      (snd (rotatePoint (calcScaleHandleCoord (orientedBoxCoords (fgeom feat) (featureAngle feat)) idx)
         (calcScaleHandleCoord (orientedBoxCoords (fgeom feat) (featureAngle feat))
            (Z.rem (idx + halfRing) (Z.of_nat scaleHandlesLength))) (- featureAngle feat))))
      as [E1 E2].
    rewrite E1, E2; apply pair_eq; unfold Rdiv; ring.
  - intros Hout; unfold scaleFactors; cbn [handleIdx initScaling]; rewrite scaleDeltas_out by exact Hout.
    cbn [fst snd]; apply pair_eq; unfold Rdiv; ring.
  - intros Hm Hnd _ _ Hsf Hi Hf; rewrite handleDragEvent_scale by exact Hm; cbv zeta;
      cbn [store headInverted]; rewrite Hsf; cbn [fst snd].
    split; [rewrite (setGeometries_at _ _ _ _ i j f Hnd Hi Hf), scaledGeometry_1; reflexivity|].
    destruct (Rlt_dec 1 0); [lra|reflexivity].
Qed.

(** The square's scale handle 6, at (10,10). *)
Lemma scale_frames_without_stretch_witness :
  let feat := mkFeature square (Some 0) in
  w (initScaling feat 6) <> 0 /\ h (initScaling feat 6) <> 0 /\
  scaleFactors (initScaling feat 6)
    (calcScaleHandleCoord (orientedBoxCoords (fgeom feat) (featureAngle feat)) 6) = (1, 1).
Proof.
  cbv zeta.
  assert (E : initScaling (mkFeature square (Some 0)) 6 = mkScalingSelection 0 10 10 6 2 (0, 0) (10, 10))
    by (apply initScaling_square; reflexivity).
  assert (Hw : w (initScaling (mkFeature square (Some 0)) 6) <> 0) by (rewrite E; cbn [w]; lra).
  assert (Hh : h (initScaling (mkFeature square (Some 0)) 6) <> 0) by (rewrite E; cbn [h]; lra).
  split; [exact Hw|]. split; [exact Hh|].
  exact (proj1 (scale_frames_without_stretch (squareScalePressed (Some 0)) (mkFeature square (Some 0))
                  6 (0, 0) 0 0 (mkFeature square (Some 0)) Hw Hh)).
Defined.

(** The side handles stretch one axis.  For a selected feature whose
    snapshot has angle 0, on a box of nonzero width and height, a frame of
    handle 1 or 5 leaves every y-coordinate of the snapshot geometry
    unchanged.  A frame of handle 3 or 7 leaves every x-coordinate
    unchanged. *)
Theorem side_handles_one_axis s p i j f :
  mode s = MScale -> NoDup (selections s) ->
  nth_error (selections s) i = Some j -> nth_error (prevSelections s) i = Some f ->
  featureAngle f = 0 ->
  let ss := scalingSelection s in
  let g := fgeom (store (handleDragEvent s p) j) in
  ((handleIdx ss = 1 \/ handleIdx ss = 5)%Z -> w ss <> 0 -> h ss <> 0 ->
     map snd (gcoords g) = map snd (gcoords (fgeom f))) /\
  ((handleIdx ss = 3 \/ handleIdx ss = 7)%Z -> w ss <> 0 -> h ss <> 0 ->
     map fst (gcoords g) = map fst (gcoords (fgeom f))).
Proof.
  intros Hm Hnd Hi Hf Ha; cbv zeta.
  rewrite handleDragEvent_scale by exact Hm; cbv zeta; cbn [store].
  rewrite (setGeometries_at _ _ _ _ i j f Hnd Hi Hf); cbn [fgeom].
  unfold scaledGeometry; rewrite Ha, Ropp_0, !geomRotate_0.
  unfold geomScale; cbn [gcoords]; rewrite !map_map.
  set (c := calcScaleHandleCoord _ _).
  unfold scaleFactors; set (d := scaleDeltas _ _ _ _ _).
  split; intros Hidx _ _; apply map_ext; intros q; unfold scaleCoordinate; cbn [fst snd].
  - assert (Hd : snd d = 0)
      by (unfold d; destruct Hidx as [-> | ->]; reflexivity).
    rewrite Hd; unfold Rdiv; ring.
  - assert (Hd : fst d = 0)
      by (unfold d; destruct Hidx as [-> | ->]; reflexivity).
    rewrite Hd; unfold Rdiv; ring.
Qed.

(** The selected square, angle 0, its side handle 1 (at (0,5)) pressed
    and dragged to (-10,5). *)
Lemma side_handles_one_axis_witness :
  let s := snd (handleDownEvent (squareSelected (Some 0))
                  (Some (PHandle (squareScaleHandle (0, 5) 1))) false (0, 5)) in
  mode s = MScale /\ NoDup (selections s) /\
  nth_error (selections s) 0 = Some 0%nat /\
  nth_error (prevSelections s) 0 = Some (mkFeature square (Some 0)) /\
  featureAngle (mkFeature square (Some 0)) = 0 /\
  handleIdx (scalingSelection s) = 1%Z /\
  w (scalingSelection s) <> 0 /\ h (scalingSelection s) <> 0 /\
  map snd (gcoords (fgeom (store (handleDragEvent s (-10, 5)) 0%nat))) = map snd (gcoords square).
Proof.
  cbv zeta.
  set (s := snd (handleDownEvent (squareSelected (Some 0))
                   (Some (PHandle (squareScaleHandle (0, 5) 1))) false (0, 5))).
  assert (H1 : mode s = MScale) by reflexivity.
  assert (H2 : NoDup (selections s)) by (change (NoDup [0%nat]); repeat constructor; simpl; tauto).
  assert (H3 : nth_error (selections s) 0 = Some 0%nat) by reflexivity.
  assert (H4 : nth_error (prevSelections s) 0 = Some (mkFeature square (Some 0))) by reflexivity.
  assert (H5 : featureAngle (mkFeature square (Some 0)) = 0) by reflexivity.
  assert (E : scalingSelection s = initScaling (mkFeature square (Some 0)) 1) by reflexivity.
  assert (H6 : handleIdx (scalingSelection s) = 1%Z) by (rewrite E; reflexivity).
  destruct calcDistance_square_side as [D1 D2].
  assert (Hw : w (scalingSelection s) <> 0).
  { rewrite E; unfold initScaling; cbn [fgeom w]; rewrite H5, square_box; cbn [nth].
    rewrite D1; lra. }
  assert (Hh : h (scalingSelection s) <> 0).
  { rewrite E; unfold initScaling; cbn [fgeom h]; rewrite H5, square_box; cbn [nth].
    rewrite D2; lra. }
  split; [exact H1|]. split; [exact H2|]. split; [exact H3|]. split; [exact H4|].
  split; [exact H5|]. split; [exact H6|]. split; [exact Hw|]. split; [exact Hh|].
  exact (proj1 (side_handles_one_axis s (-10, 5) 0 0 _ H1 H2 H3 H4 H5) (or_introl H6) Hw Hh).
Defined.

(** A rotate frame moves each selected feature rigidly.  The new
    geometry has the snapshot's kind and the same number of coordinates,
    and the distance between any two of them is the snapshot's. *)
Theorem rotate_frame_rigid s p i j f k l a b :
  mode s = MRotate -> NoDup (selections s) ->
  nth_error (selections s) i = Some j -> nth_error (prevSelections s) i = Some f ->
  nth_error (gcoords (fgeom f)) k = Some a -> nth_error (gcoords (fgeom f)) l = Some b ->
  let g := fgeom (store (handleDragEvent s p) j) in
  gkind g = gkind (fgeom f) /\ length (gcoords g) = length (gcoords (fgeom f)) /\
  exists a' b', nth_error (gcoords g) k = Some a' /\ nth_error (gcoords g) l = Some b' /\
                calcDistance a' b' = calcDistance a b.
Proof.
  intros Hm Hnd Hi Hf Ha Hb; cbv zeta.
  rewrite handleDragEvent_rotate by exact Hm; cbv zeta; cbn [store].
  rewrite (setGeometries_at _ _ _ _ i j f Hnd Hi Hf); cbn [fgeom].
  unfold rotatedGeometry, geomRotate; cbn [gkind gcoords]; split; [reflexivity|].
  split; [apply length_map|].
  rewrite !nth_error_map, Ha, Hb; cbn [option_map].
  do 2 eexists; split_and; [reflexivity|reflexivity|apply calcDistance_rotateCoordinate].
Qed.

(** The rotate scenario's frame at (10,5); the square's corners (0,0) and (10,10). *)
Lemma rotate_frame_rigid_witness :
  let s := squareRotatePressed (Some 0) in
  mode s = MRotate /\ NoDup (selections s) /\
  nth_error (selections s) 0 = Some 0%nat /\
  nth_error (prevSelections s) 0 = Some (mkFeature square (Some 0)) /\
  nth_error (gcoords square) 0 = Some (0, 0) /\ nth_error (gcoords square) 2 = Some (10, 10) /\
  gkind (fgeom (store (handleDragEvent s (10, 5)) 0%nat)) = GPolygon.
Proof.
  cbv zeta.
  assert (H1 : mode (squareRotatePressed (Some 0)) = MRotate) by reflexivity.
  assert (H2 : NoDup (selections (squareRotatePressed (Some 0))))
    by (change (NoDup [0%nat]); repeat constructor; simpl; tauto).
  assert (H3 : nth_error (selections (squareRotatePressed (Some 0))) 0 = Some 0%nat)
    by reflexivity.
  assert (H4 : nth_error (prevSelections (squareRotatePressed (Some 0))) 0 =
               Some (mkFeature square (Some 0))) by reflexivity.
  assert (H5 : nth_error (gcoords (fgeom (mkFeature square (Some 0)))) 0 = Some (0, 0))
    by reflexivity.
  assert (H6 : nth_error (gcoords (fgeom (mkFeature square (Some 0)))) 2 = Some (10, 10))
    by reflexivity.
  split; [exact H1|]. split; [exact H2|]. split; [exact H3|]. split; [exact H4|].
  split; [exact H5|]. split; [exact H6|].
  exact (proj1 (rotate_frame_rigid _ (10, 5) 0 0 _ 0 2 _ _ H1 H2 H3 H4 H5 H6)).
Defined.

Lemma translateSelections_0 sels st j : translateSelections 0 0 sels st j = st j.
Proof.
  unfold translateSelections.
  assert (G : forall cur, (forall j, cur j = st j) ->
            forall j, fold_left (fun st id => setGeometry st id (geomTranslate 0 0 (fgeom (st id))))
                        sels cur j = st j).
  { induction sels as [|id sels IH]; intros cur Hc j'; [apply Hc|]; cbn [fold_left]; apply IH.
    intros j''; unfold setGeometry; destruct (Nat.eqb j'' id) eqn:E; [|apply Hc].
    apply Nat.eqb_eq in E; subst; rewrite geomTranslate_0, Hc; destruct (st id); reflexivity. }
  apply G; reflexivity.
Qed.

Lemma setGeometries_snapshot F sels st :
  (forall f, F f = fgeom f) ->
  forall j, setGeometries F (map st sels) sels st j = st j.
Proof.
  intros HF.
  assert (G : forall cur, (forall j, cur j = st j) ->
            forall j, setGeometries F (map st sels) sels cur j = st j).
  { induction sels as [|id sels IH]; intros cur Hc j'; [apply Hc|]; cbn [map setGeometries]; apply IH.
    intros j''; unfold setGeometry; destruct (Nat.eqb j'' id) eqn:E; [|apply Hc].
    apply Nat.eqb_eq in E; subst; rewrite HF, Hc; destruct (st id); reflexivity. }
  apply G; reflexivity.
Qed.

(** For a translate or rotate gesture, a first drag frame at the
    pointer-down coordinate leaves every feature as it was before the
    pointer-down. *)
Theorem no_jump_at_press_point s0 hit add c j :
  fst (handleDownEvent s0 hit add c) = true ->
  let s1 := snd (handleDownEvent s0 hit add c) in
  mode s1 = MTranslate \/ mode s1 = MRotate ->
  store (handleDragEvent s1 c) j = store s0 j.
Proof.
  intros Ht; cbv zeta; destruct hit as [[id|hd]|].
  - rewrite handleDownEvent_body; cbv zeta; cbn [snd mode]; intros _.
    rewrite handleDragEvent_translate by reflexivity; cbn [store prevCoord selections].
    rewrite Rminus_diag, Rminus_diag, translateSelections_0.
    destruct (selectFeature_body_fields s0 id add) as (E & _); rewrite E; reflexivity.
  - rewrite handleDownEvent_handle; cbv zeta; cbn [snd mode]; intros Hm.
    destruct (hmode hd) eqn:Eh; destruct Hm as [Hm|Hm]; try discriminate.
    + rewrite handleDragEvent_translate by reflexivity; cbn [store prevCoord selections].
      rewrite Rminus_diag, Rminus_diag; apply translateSelections_0.
    + rewrite handleDragEvent_rotate by reflexivity; cbv zeta;
        cbn [store prevSelections selections rotationSelection center rsAngle].
      rewrite Rminus_diag; apply setGeometries_snapshot.
      intros f; unfold rotatedGeometry; apply geomRotate_0.
  - unfold handleDownEvent in Ht; cbn [selectFeature] in Ht; discriminate.
Qed.

(** A press on the selected square's body at (5,5), then a frame at (5,5). *)
Lemma no_jump_at_press_point_witness :
  let r := handleDownEvent (squareSelected None) (Some (PBody 0)) false (5, 5) in
  fst r = true /\ (mode (snd r) = MTranslate \/ mode (snd r) = MRotate) /\
  store (handleDragEvent (snd r) (5, 5)) 0%nat = store (squareSelected None) 0%nat.
Proof.
  cbv zeta.
  assert (H1 : fst (handleDownEvent (squareSelected None) (Some (PBody 0)) false (5, 5)) = true)
    by reflexivity.
  assert (H2 : mode (snd (handleDownEvent (squareSelected None) (Some (PBody 0)) false (5, 5)))
               = MTranslate \/
               mode (snd (handleDownEvent (squareSelected None) (Some (PBody 0)) false (5, 5)))
               = MRotate) by (left; reflexivity).
  split; [exact H1|]. split; [exact H2|].
  exact (no_jump_at_press_point _ _ _ _ 0 H1 H2).
Defined.

Lemma handleDragEvent_lengths s p :
  length (prevSelections (handleDragEvent s p)) = length (prevSelections s) /\
  length (selections (handleDragEvent s p)) = length (selections s).
Proof.
  destruct s as [st sels prev hl m it sc pc rs ss hi ev]; destruct m; cbn;
    rewrite ?length_map; split; reflexivity.
Qed.

(** After a pointer-down the snapshot holds the values of the selected
    features, one per selected feature.  The snapshot and the selection
    keep the same length through any drag frames and the pointer-up, so
    [_selections.item(i)] is defined for every snapshot index [i]. *)
Theorem snapshot_aligned_with_selection s0 hit add c ps :
  let s1 := snd (handleDownEvent s0 hit add c) in
  let s2 := dragFrames s1 ps in
  prevSelections s1 = map (store s0) (selections s1) /\
  length (prevSelections s2) = length (selections s2) /\
  length (prevSelections (handleUpEvent s2)) = length (selections (handleUpEvent s2)).
Proof.
  cbv zeta.
  assert (H1 : prevSelections (snd (handleDownEvent s0 hit add c)) =
               map (store s0) (selections (snd (handleDownEvent s0 hit add c)))).
  { destruct hit as [[id|hd]|].
    - rewrite handleDownEvent_body; cbv zeta; cbn [snd prevSelections selections].
      destruct (selectFeature_body_fields s0 id add) as (E & _); rewrite E; reflexivity.
    - rewrite handleDownEvent_handle; reflexivity.
    - unfold handleDownEvent; cbn [selectFeature]; unfold selClear;
        destruct (selections s0); reflexivity. }
  assert (H2 : forall s, length (prevSelections s) = length (selections s) ->
            length (prevSelections (dragFrames s ps)) = length (selections (dragFrames s ps))).
  { induction ps as [|p ps IH]; intros s Hs; [exact Hs|].
    change (dragFrames s (p :: ps)) with (dragFrames (handleDragEvent s p) ps).
    apply IH; destruct (handleDragEvent_lengths s p) as [-> ->]; exact Hs. }
  assert (H3 : length (prevSelections (dragFrames (snd (handleDownEvent s0 hit add c)) ps)) =
               length (selections (dragFrames (snd (handleDownEvent s0 hit add c)) ps)))
    by (apply H2; rewrite H1, length_map; reflexivity).
  split_and; [exact H1|exact H3|rewrite handleUpEvent_eq; exact H3].
Qed.
